(** * Metadata extraction and ranking of src/main.py

    A shallow embedding of the string-normalisation, title/artist extraction,
    scoring and ranking functions of [src/main.py], and the properties the
    specification states about them.

    - Python [str] values are lists of Unicode code points.
    - Regular expressions are a small syntax tree with a backtracking matcher
      that enumerates the matches in the priority order of Python's [re].
    - Python [float] values are IEEE 754 binary64 numbers ([PrimFloat]).
    - Records are dictionaries kept in a store, addressed by reference. *)

From Stdlib Require Import ZArith NArith List String Ascii Bool Lia Floats Sorted.
From stdpp Require Import gmap strings list fin_maps.

Local Open Scope N_scope.

(** ** Strings *)

Definition char := N.
Definition str := list char.

(** An ASCII literal of the source as a list of code points. *)
Definition lit (s : string) : str :=
  map N_of_ascii (list_ascii_of_string s).

(** The only character, as a code point, of a one-character literal. *)
Definition ch (s : string) : char :=
  match s with
  | String a _ => N_of_ascii a
  | EmptyString => 0
  end.

(** [str.isspace] for one code point (CPython's [Py_UNICODE_ISSPACE]); the same
    set is used by [str.strip()] and by [\s] in a [str] pattern. *)
Definition isspace (c : char) : bool :=
  ((9 <=? c) && (c <=? 13)) || ((28 <=? c) && (c <=? 32))
  || (c =? 133) || (c =? 160) || (c =? 5760)
  || ((8192 <=? c) && (c <=? 8202))
  || (c =? 8232) || (c =? 8233) || (c =? 8239) || (c =? 8287) || (c =? 12288).

Definition is_ascii (c : char) : bool := c <? 128.

Definition ascii_lower (c : char) : char :=
  if (65 <=? c) && (c <=? 90) then c + 32 else c.

Definition ascii_alnum (c : char) : bool :=
  ((48 <=? c) && (c <=? 57)) || ((65 <=? c) && (c <=? 90))
  || ((97 <=? c) && (c <=? 122)).

Definition eq_str (a b : str) : bool := bool_decide (a = b).

(** Truthiness of a string: [bool(s)]. *)
Definition nonempty (s : str) : bool :=
  match s with [] => false | _ :: _ => true end.

Definition drop_while {A} (p : A -> bool) : list A -> list A :=
  fix go l :=
    match l with
    | [] => []
    | x :: l' => if p x then go l' else l
    end.

(** [s.strip(chars)]: drop the characters of the set at both ends. *)
Definition strip_chars (p : char -> bool) (s : str) : str :=
  rev (drop_while p (rev (drop_while p s))).

(** [s.strip()]. *)
Definition strip (s : str) : str := strip_chars isspace s.

(** [s.replace(a, b)] for one-character [a] and [b]. *)
Definition replace_char (a b : char) (s : str) : str :=
  map (fun c => if c =? a then b else c) s.

(** [sep.join(l)]. *)
Fixpoint join (sep : str) (l : list str) : str :=
  match l with
  | [] => []
  | [x] => x
  | x :: l' => x ++ sep ++ join sep l'
  end.

(** [s.endswith(suffix)]. *)
Definition endswith (s suffix : str) : bool :=
  eq_str (drop (length s - length suffix)%nat s) suffix
  && (length suffix <=? length s)%nat.

(** [sub in s] for strings. *)
Fixpoint is_prefix (p s : str) : bool :=
  match p, s with
  | [], _ => true
  | a :: p', b :: s' => (a =? b) && is_prefix p' s'
  | _ :: _, [] => false
  end.

Fixpoint contains (s sub : str) : bool :=
  is_prefix sub s ||
  match s with
  | [] => false
  | _ :: s' => contains s' sub
  end.

(** ** Exceptions *)

Inductive exn := TypeError | ValueError | KeyError | AttributeError | IndexError.

Inductive res (A : Type) :=
| Ok (a : A)
| Raise (e : exn).
Arguments Ok {A} a.
Arguments Raise {A} e.

Definition res_bind {A B} (m : res A) (f : A -> res B) : res B :=
  match m with
  | Ok a => f a
  | Raise e => Raise e
  end.

#[global] Instance res_mbind : MBind res := fun A B f m => res_bind m f.
#[global] Instance res_mret : MRet res := fun A a => Ok a.

(** ** Regular expressions

    The constructs the patterns of the source use.  Repetition is only ever
    applied to a character class there ([\s+], [.*], [.+?], [[^)]*], [\s{2,}]),
    so [Rep] repeats a class; [Opt] is the greedy [?]. *)

Inductive regex :=
| Eps
| Cls (p : char -> bool)
| Seq (r1 r2 : regex)
| Alt (r1 r2 : regex)
| Opt (r : regex)
| Rep (greedy : bool) (lo : nat) (p : char -> bool)
| Grp (name : string) (r : regex)
| Bol
| Eol
| WordB (w : char -> bool).

(** Concatenation and alternation of several sub-patterns. *)
Fixpoint cat (rs : list regex) : regex :=
  match rs with
  | [] => Eps
  | [r] => r
  | r :: rs' => Seq r (cat rs')
  end.

Fixpoint alts (rs : list regex) : regex :=
  match rs with
  | [] => Eps
  | [r] => r
  | r :: rs' => Alt r (alts rs')
  end.

(** The matcher's position: the character before it, the text after it, and
    the groups captured so far (most recent first). *)
Definition caps := list (string * str).

Record mstate := MState {
  m_prev : option char;
  m_rest : str;
  m_caps : caps;
}.

(** All ways to consume at least [lo] characters of the class [p], the longest
    first. *)
Fixpoint rep_from (p : char -> bool) (lo : nat) (prev : option char) (s : str)
  : list (option char * str) :=
  let here := match lo with O => [(prev, s)] | S _ => [] end in
  match s with
  | c :: s' => if p c then rep_from p (pred lo) (Some c) s' ++ here else here
  | [] => here
  end.

Definition opt_word (w : char -> bool) (c : option char) : bool :=
  match c with Some c => w c | None => false end.

(** [rmatch r st]: every way [r] matches at [st], in the order in which a
    backtracking engine tries them; the head is the match Python reports. *)
Fixpoint rmatch (r : regex) (st : mstate) : list mstate :=
  match r with
  | Eps => [st]
  | Cls p =>
      match m_rest st with
      | c :: s' => if p c then [MState (Some c) s' (m_caps st)] else []
      | [] => []
      end
  | Seq r1 r2 => flat_map (rmatch r2) (rmatch r1 st)
  | Alt r1 r2 => rmatch r1 st ++ rmatch r2 st
  | Opt r1 => rmatch r1 st ++ [st]
  | Rep greedy lo p =>
      let all := rep_from p lo (m_prev st) (m_rest st) in
      map (fun '(pv, s') => MState pv s' (m_caps st))
          (if greedy then all else rev all)
  | Grp name r1 =>
      map (fun st' =>
             let n := (length (m_rest st) - length (m_rest st'))%nat in
             MState (m_prev st') (m_rest st')
                    ((name, take n (m_rest st)) :: m_caps st'))
          (rmatch r1 st)
  | Bol => match m_prev st with None => [st] | Some _ => [] end
  | Eol =>
      match m_rest st with
      | [] => [st]
      | [c] => if c =? 10 then [st] else []
      | _ => []
      end
  | WordB w =>
      if xorb (opt_word w (m_prev st)) (opt_word w (head (m_rest st)))
      then [st] else []
  end.

(** A literal, matched exactly. *)
Definition chr_is (x : char) : char -> bool := fun c => c =? x.
Definition chr_not (x : char) : char -> bool := fun c => negb (c =? x).
(** [.] without DOTALL. *)
Definition dot : char -> bool := chr_not 10.

(** One pattern character under [re.I] in a [str] pattern: the character,
    its other case, and the code points the engine treats as equivalent
    (U+0130 and U+0131 for i, U+017F for s, U+212A for k). *)
Definition chr_ci (x : char) : char -> bool := fun c =>
  (c =? x) || (ascii_lower c =? x)
  || ((x =? 105) && ((c =? 304) || (c =? 305)))
  || ((x =? 115) && (c =? 383))
  || ((x =? 107) && (c =? 8490)).

Fixpoint lit_re (f : char -> char -> bool) (s : str) : regex :=
  match s with
  | [] => Eps
  | [x] => Cls (f x)
  | x :: s' => Seq (Cls (f x)) (lit_re f s')
  end.

(** A literal string of a pattern, case-sensitive and under [re.I]. *)
Definition L (s : string) : regex := lit_re chr_is (lit s).
Definition Li (s : string) : regex := lit_re chr_ci (lit s).

(** *** re.match, re.search, re.sub *)

Definition re_match (r : regex) (s : str) : option mstate :=
  head (rmatch r (MState None s [])).

Fixpoint search_from (r : regex) (prev : option char) (s : str) : bool :=
  match rmatch r (MState prev s []) with
  | _ :: _ => true
  | [] =>
      match s with
      | [] => false
      | c :: s' => search_from r (Some c) s'
      end
  end.

(** [bool(re.search(r, s))]. *)
Definition re_search (r : regex) (s : str) : bool := search_from r None s.

(** Lengths of the matches of [r] at a position, in priority order. *)
Definition match_lens (r : regex) (prev : option char) (s : str) : list nat :=
  map (fun st' => (length s - length (m_rest st'))%nat)
      (rmatch r (MState prev s [])).

Definition first_len (adv : bool) (ls : list nat) : option nat :=
  head (List.filter (fun n => negb adv || (0 <? n)%nat) ls).

(** [re.sub(r, repl, s)] for a replacement without group references: scan
    from the left; where [r] matches, emit [repl] and skip the match ([skip]
    counts the characters of the current match still to drop); elsewhere copy
    the character.  After an empty match the next match at the same position
    must not be empty (Python 3.7 and later). *)
Fixpoint sub_go (r : regex) (repl : str) (prev : option char) (s : str)
  (skip : nat) : str :=
  match skip with
  | S k =>
      match s with
      | [] => []
      | c :: s' => sub_go r repl (Some c) s' k
      end
  | O =>
      let ls := match_lens r prev s in
      let next n :=
        match s with
        | [] => []
        | c :: s' => sub_go r repl (Some c) s' n
        end in
      let copy :=
        match s with
        | [] => []
        | c :: s' => c :: sub_go r repl (Some c) s' 0
        end in
      match first_len false ls with
      | Some (S n) => repl ++ next n
      | Some O =>
          repl ++
          match first_len true ls with
          | Some (S n) => repl ++ next n
          | _ => copy
          end
      | None => copy
      end
  end.

Definition re_sub (r : regex) (repl : str) (s : str) : str :=
  sub_go r repl None s 0.

(** ** build_ytmusic_query *)

(** The argument is a string or a sequence of strings. *)
Inductive keywords_arg :=
| KStr (s : str)
| KSeq (l : list str).

Definition build_ytmusic_query (keywords : keywords_arg) : str :=
  let raw :=
    match keywords with
    | KStr s => s
    | KSeq l => join (lit " ") l
    end in
  let raw := replace_char (ch ",") (ch " ") (strip raw) in
  let raw := re_sub (Rep true 1 isspace) (lit " ") raw in
  raw.

(** ** Unicode tables

    [str.isalnum] and [str.lower] follow the Unicode character database.  On
    ASCII text they are written out here; beyond ASCII the tables are
    parameters of the development. *)

Section Extraction.

Variable uni_alnum : char -> bool.
Variable uni_lower : str -> str.

(** A word character for [\b] in a [str] pattern: alphanumeric or [_]. *)
Definition is_word (c : char) : bool :=
  if is_ascii c then ascii_alnum c || (c =? 95) else uni_alnum c.

(** [s.lower()]. *)
Definition lower (s : str) : str :=
  if forallb is_ascii s then map ascii_lower s else uni_lower s.

(** ** _clean_title *)

(** [\[[^\]]*\]] *)
Definition re_bracketed : regex :=
  cat [L "["; Rep true 0 (chr_not (ch "]")); L "]"].

(** [\((?:official|mv|m/v|lyric|audio|teaser|performance|ver\.?|version|shorts|full album|visualizer)[^)]*\)]
    with [re.I]. *)
Definition re_paren_vocab : regex :=
  cat [L "(";
       alts [Li "official"; Li "mv"; Li "m/v"; Li "lyric"; Li "audio";
             Li "teaser"; Li "performance"; Seq (Li "ver") (Opt (L "."));
             Li "version"; Li "shorts"; Li "full album"; Li "visualizer"];
       Rep true 0 (chr_not (ch ")"));
       L ")"].

(** [(?i)\b(official\s*(video)?|mv|m/v|lyric\s*video|audio|teaser|visualizer|shorts)\b] *)
Definition re_vocab : regex :=
  cat [WordB is_word;
       Grp "1"
         (alts [cat [Li "official"; Rep true 0 isspace; Opt (Grp "2" (Li "video"))];
                Li "mv"; Li "m/v";
                cat [Li "lyric"; Rep true 0 isspace; Li "video"];
                Li "audio"; Li "teaser"; Li "visualizer"; Li "shorts"]);
       WordB is_word].

(** [\s+\|\s*.*$] *)
Definition re_pipe_tail : regex :=
  cat [Rep true 1 isspace; L "|"; Rep true 0 isspace; Rep true 0 dot; Eol].

(** [\s{2,}] *)
Definition re_spaces : regex := Rep true 2 isspace.

(** The character set of [.strip(" -|")]. *)
Definition in_edge_set (c : char) : bool :=
  (c =? ch " ") || (c =? ch "-") || (c =? ch "|").

(** The successive statements of [_clean_title]. *)
Definition drop_bracketed (s : str) : str := re_sub re_bracketed [] s.
Definition drop_paren_vocab (s : str) : str := re_sub re_paren_vocab [] s.
Definition drop_vocab (s : str) : str := re_sub re_vocab [] s.
Definition drop_pipe_tail (s : str) : str := re_sub re_pipe_tail [] s.
Definition squeeze (s : str) : str :=
  strip_chars in_edge_set (re_sub re_spaces (lit " ") s).

Definition _clean_title (s : str) : str :=
  let s := drop_bracketed s in
  let s := drop_paren_vocab s in
  let s := drop_vocab s in
  let s := drop_pipe_tail s in
  let s := squeeze s in
  strip s.

(** ** extract_title_artist *)

(** [m.group(name)].  A group that is absent from the match makes the
    surrounding code raise: [IndexError] for an unknown name, or a [None]
    result on which [_clean_title] raises [TypeError]. *)
Fixpoint group (c : caps) (name : string) : res str :=
  match c with
  | [] => Raise IndexError
  | (n, v) :: c' => if String.eqb n name then Ok v else group c' name
  end.

(** [^\s*(?P<g1>.+?)\s*<delim>\s*(?P<g2>.+?)\s*$] *)
Definition sep_pattern (g1 : string) (delim : char) (g2 : string) : regex :=
  cat [Bol; Rep true 0 isspace; Grp g1 (Rep false 1 dot); Rep true 0 isspace;
       Cls (chr_is delim); Rep true 0 isspace; Grp g2 (Rep false 1 dot);
       Rep true 0 isspace; Eol].

(** U+2014 EM DASH, the delimiter of the third pattern. *)
Definition em_dash : char := 8212.

Definition patterns : list regex :=
  [ sep_pattern "artist" (ch "-") "title";
    sep_pattern "title" (ch "-") "artist";
    sep_pattern "artist" em_dash "title" ].

(** The [for p in patterns] loop: [Ok (Some _)] is the [return] inside the
    loop, [Ok None] is falling out of it. *)
Fixpoint try_patterns (ps : list regex) (t : str) : res (option (str * str)) :=
  match ps with
  | [] => Ok None
  | p :: ps' =>
      match re_match p t with
      | Some m =>
          a ← group (m_caps m) "artist";
          let artist := _clean_title a in
          b ← group (m_caps m) "title";
          let title := _clean_title b in
          if nonempty artist && nonempty title
          then Ok (Some (title, artist))
          else try_patterns ps' t
      | None => try_patterns ps' t
      end
  end.

(** [x or ""] for an argument that is a string or [None]. *)
Definition or_empty (x : option str) : str :=
  match x with Some s => s | None => [] end.

(** [a or b] on strings. *)
Definition str_or (a b : str) : str := if nonempty a then a else b.

Definition extract_with (ps : list regex)
  (video_title channel_title : option str) : res (str * str) :=
  let t := _clean_title (or_empty video_title) in
  let c := strip (or_empty channel_title) in
  r ← try_patterns ps t;
  match r with
  | Some ta => Ok ta
  | None =>
      let c :=
        if nonempty c && endswith (lower c) (lit " - topic")
        then strip (take (length c - 8)%nat c)
        else c in
      if nonempty t && nonempty c
      then Ok (t, c)
      else Ok (strip (str_or t (or_empty video_title)),
               strip (str_or c (or_empty channel_title)))
  end.

Definition extract_title_artist : option str -> option str -> res (str * str) :=
  extract_with patterns.

End Extraction.

(** Tables for text that is ASCII only, where the parameters are never
    consulted. *)
Definition no_alnum : char -> bool := fun _ => false.
Definition same_str : str -> str := fun s => s.

(** ** Python values and the store

    A record is a [dict]; [rank_recommendations] copies and updates dicts, so
    they live in a store and are passed around by reference. *)

Inductive value :=
| VNone
| VStr (s : str)
| VInt (n : Z)
| VFloat (f : float).

Definition loc := positive.

Abbreviation dict := (gmap string value).
Abbreviation store := (gmap loc (gmap string value)).

Definition alloc (h : store) (d : dict)
  : loc * store :=
  let l := fresh (dom h) in (l, <[l := d]> h).

(** [obj[k] = v] on the dict at [l]. *)
Definition setitem (h : store) (l : loc)
  (k : string) (v : value) : store :=
  alter (fun d => <[k := v]> d) l h.

(** [bool(v)]. *)
Definition truthy (v : value) : bool :=
  match v with
  | VNone => false
  | VStr s => nonempty s
  | VInt n => negb (n =? 0)%Z
  | VFloat f => negb (f =? 0)%float
  end.

(** [a or b]. *)
Definition py_or (a b : value) : value := if truthy a then a else b.

(** [d.get(k)] and [d.get(k, dflt)]. *)
Definition dict_get (d : dict) (k : string) : value :=
  default VNone (d !! k).
Definition dict_get_or (d : dict) (k : string) (dflt : value) : value :=
  default dflt (d !! k).

(** [v.lower()]: only strings have the method. *)
Definition value_lower (lower : str -> str) (v : value) : res str :=
  match v with
  | VStr s => Ok (lower s)
  | _ => Raise AttributeError
  end.

(** [v + 1]. *)
Definition value_succ (v : value) : res value :=
  match v with
  | VInt n => Ok (VInt (n + 1))
  | VFloat f => Ok (VFloat (f + 1)%float)
  | _ => Raise TypeError
  end.

(** ** Preferences *)

Record prefs := Prefs {
  keywords : list str;
  keywords_lower : list str;
  penalty_terms : list str;
}.

(** [s.split(sep)] for a one-character separator. *)
Fixpoint split_on (sep : char) (s : str) : list str :=
  match s with
  | [] => [[]]
  | c :: s' =>
      if c =? sep then [] :: split_on sep s'
      else match split_on sep s' with
           | w :: ws => (c :: w) :: ws
           | [] => [[c]]
           end
  end.

(** The float constants of the source, as binary64 values. *)
Definition f0 : float := 0x0p+0%float.
Definition f1 : float := 0x1p+0%float.
Definition f2 : float := 0x1p+1%float.
(** 1.5 *)
Definition w_kw : float := 0x1.8p+0%float.
(** 0.7 *)
Definition w_pop : float := 0x1.6666666666666p-1%float.
(** 0.8 *)
Definition w_pen : float := 0x1.999999999999ap-1%float.

(** [list.sort(key=..., reverse=True)] on a list already decorated with its
    float keys.  The sort is stable, and with [reverse=True] it keeps equal
    keys in their original order; on keys that are totally ordered every
    such sort returns the list computed here.  Only [<] is used to compare
    keys. *)
Fixpoint insert_desc {A} (x : float * A) (l : list (float * A))
  : list (float * A) :=
  match l with
  | [] => [x]
  | y :: l' =>
      if (x.1 <? y.1)%float then y :: insert_desc x l' else x :: l
  end.

Definition sort_desc {A} (l : list (float * A)) : list (float * A) :=
  foldr insert_desc [] l.

Section Ranking.

Variable uni_alnum : char -> bool.
Variable uni_lower : str -> str.

(** [math.log10] on an [int] and on a [float] argument, and [round(x, 3)]:
    the C library and the interpreter provide them. *)
Variable log10_int : Z -> float.
Variable log10_float : float -> float.
Variable round3 : float -> float.

Abbreviation lower := (lower uni_lower).
Abbreviation is_word := (is_word uni_alnum).

(** ** build_user_prefs *)

Definition build_user_prefs (kws_in : keywords_arg) : prefs :=
  let kws :=
    match kws_in with
    | KStr s =>
        map strip (List.filter (fun k => nonempty (strip k)) (split_on (ch ",") s))
    | KSeq l =>
        map strip (List.filter (fun k => nonempty (strip k)) l)
    end in
  let kws_lower := map lower kws in
  Prefs kws kws_lower [lit "live"; lit "cover"; lit "remix"].

(** ** score_item *)

(** [math.log10(v)]. *)
Definition math_log10 (v : value) : res float :=
  match v with
  | VInt n => if (0 <? n)%Z then Ok (log10_int n) else Raise ValueError
  | VFloat f => if (f <=? 0)%float then Raise ValueError else Ok (log10_float f)
  | _ => Raise TypeError
  end.

Definition title_of (item : dict) : res str :=
  value_lower lower
    (py_or (dict_get item "song_title") (py_or (dict_get item "title") (VStr []))).

Definition artist_of (item : dict) : res str :=
  value_lower lower
    (py_or (dict_get item "artist") (py_or (dict_get item "channel") (VStr []))).

(** One round of the keyword loop. *)
Definition kw_step (title artist text : str) (kw_score : float) (kw : str)
  : float :=
  if negb (nonempty kw) then kw_score else
  let kw_score := if contains text kw then (kw_score + f2)%float else kw_score in
  let kw_score := if contains title kw then (kw_score + f1)%float else kw_score in
  let kw_score := if contains artist kw then (kw_score + f1)%float else kw_score in
  kw_score.

Definition kw_score_of (title artist text : str) (p : prefs) : float :=
  fold_left (kw_step title artist text) (keywords_lower p) f0.

(** [item.get("views", 0) or 0] *)
Definition views_of (item : dict) : value :=
  py_or (dict_get_or item "views" (VInt 0)) (VInt 0).

Definition pop_score_of (item : dict) : res float :=
  let views := views_of item in
  v1 ← value_succ views;
  math_log10 v1.

(** [rf"\b{re.escape(t)}\b"] *)
Definition whole_word (t : str) : regex :=
  cat [WordB is_word; lit_re chr_is t; WordB is_word].

(** [any(t in prefs["keywords_lower"] for t in prefs["penalty_terms"])] *)
Definition kw_has_penalty_terms (p : prefs) : bool :=
  existsb (fun t => existsb (eq_str t) (keywords_lower p)) (penalty_terms p).

Definition penalty_step (text : str) (penalty : float) (t : str) : float :=
  if re_search (whole_word t) text then (penalty + f1)%float else penalty.

Definition penalty_of (text : str) (p : prefs) : float :=
  if negb (kw_has_penalty_terms p)
  then fold_left (penalty_step text) (penalty_terms p) f0
  else f0.

Definition score_dict (item : dict) (p : prefs) : res float :=
  title ← title_of item;
  artist ← artist_of item;
  let text := title ++ lit " " ++ artist in
  let kw_score := kw_score_of title artist text p in
  pop_score ← pop_score_of item;
  let penalty := penalty_of text p in
  Ok (kw_score * w_kw + pop_score * w_pop - penalty * w_pen)%float.

(** [score_item(item, prefs)], [item] being a reference into the store. *)
Definition score_item (h : store) (item : loc) (p : prefs)
  : res float :=
  match h !! item with
  | Some d => score_dict d p
  | None => Raise KeyError
  end.

(** ** rank_recommendations *)

(** The [for it in items] loop; [ranked] is the list built so far. *)
Fixpoint rank_loop (items : list loc) (p : prefs) (ranked : list loc)
  (h : store)
  : res (list loc) * store :=
  match items with
  | [] => (Ok ranked, h)
  | it :: items' =>
      match score_item h it p, h !! it with
      | Ok s, Some d =>
          let '(it2, h) := alloc h d in
          let h := setitem h it2 "score" (VFloat (round3 s)) in
          rank_loop items' p (ranked ++ [it2]) h
      | Raise e, _ => (Raise e, h)
      | _, None => (Raise KeyError, h)
      end
  end.

(** The key function [lambda x: x["score"]]. *)
Definition score_key (h : store) (x : loc) : res float :=
  match h !! x with
  | Some d =>
      match d !! "score" with
      | Some (VFloat f) => Ok f
      | Some _ => Raise TypeError
      | None => Raise KeyError
      end
  | None => Raise KeyError
  end.

(** Decorate the list with its keys. *)
Fixpoint decorate (h : store) (l : list loc)
  : res (list (float * loc)) :=
  match l with
  | [] => Ok []
  | x :: l' =>
      k ← score_key h x;
      r ← decorate h l';
      Ok ((k, x) :: r)
  end.

Definition rank_recommendations (h : store)
  (items : list loc) (p : prefs)
  : res (list loc) * store :=
  match rank_loop items p [] h with
  | (Ok ranked, h') =>
      match decorate h' ranked with
      | Ok keyed => (Ok (map snd (sort_desc keyed)), h')
      | Raise e => (Raise e, h')
      end
  | (Raise e, h') => (Raise e, h')
  end.

End Ranking.

(** Stand-ins for the library functions, used to evaluate the definitions on
    examples: a [log10] that is exact on 1, 10, 100 and 1000, and a rounding
    that leaves its argument as it is. *)
Definition log10_table (n : Z) : float :=
  if (n =? 1)%Z then f0
  else if (n =? 10)%Z then f1
  else if (n =? 100)%Z then f2
  else 0x1.8p+1%float.
Definition log10_const (f : float) : float := f0.
Definition round_id (f : float) : float := f.

(** ** Properties of the matcher *)

Section Matcher.

Implicit Types (r : regex) (st : mstate) (c : caps) (n : string).

(** Matching only ever adds captures in front of those already made. *)
Lemma rmatch_caps_extend r : forall st st',
  In st' (rmatch r st) -> exists l, m_caps st' = l ++ m_caps st.
Proof.
  induction r; intros st st' Hin; simpl in Hin.
  - destruct Hin as [<-|[]]. by exists [].
  - destruct (m_rest st) as [|x s']; [done|].
    destruct (p x); [|done]. destruct Hin as [<-|[]]. by exists [].
  - apply in_flat_map in Hin as (st1 & H1 & H2).
    apply IHr1 in H1 as [l1 E1]. apply IHr2 in H2 as [l2 E2].
    exists (l2 ++ l1). by rewrite E2, E1, app_assoc.
  - apply in_app_or in Hin as [H|H]; eauto.
  - apply in_app_or in Hin as [H|[<-|[]]]; eauto. by exists [].
  - apply in_map_iff in Hin as ([pv s'] & <- & _). by exists [].
  - apply in_map_iff in Hin as (st1 & <- & H1).
    apply IHr in H1 as [l E]. exists ((name, take (length (m_rest st) - length (m_rest st1)) (m_rest st)) :: l).
    simpl. by rewrite E.
  - destruct (m_prev st); [done|]. destruct Hin as [<-|[]]. by exists [].
  - destruct (m_rest st) as [|x [|y s']]; try done.
    + destruct Hin as [<-|[]]. by exists [].
    + destruct (x =? 10); [|done]. destruct Hin as [<-|[]]. by exists [].
  - destruct (xorb _ _); [|done]. destruct Hin as [<-|[]]. by exists [].
Qed.

(** [bound c n]: the group [n] has a value in [c]. *)
Definition bound c n : Prop := exists v, group c n = Ok v.

Lemma bound_cons c n m v : bound ((m, v) :: c) n <-> m = n \/ bound c n.
Proof.
  unfold bound. simpl. destruct (String.eqb_spec m n) as [->|Hne].
  - split; [by left|]. intros _. by exists v.
  - split; [by right|]. by intros [?|?].
Qed.

Lemma bound_app c l n : bound c n -> bound (l ++ c) n.
Proof.
  induction l as [|[m v] l IH]; [done|]. intros H. simpl.
  apply bound_cons. right. auto.
Qed.

(** The group names every match of a pattern is sure to capture. *)
Fixpoint captures r n : bool :=
  match r with
  | Grp m r1 => String.eqb m n || captures r1 n
  | Seq r1 r2 => captures r1 n || captures r2 n
  | Alt r1 r2 => captures r1 n && captures r2 n
  | _ => false
  end.

Lemma rmatch_keeps_bound r st st' n :
  In st' (rmatch r st) -> bound (m_caps st) n -> bound (m_caps st') n.
Proof.
  intros Hin Hb. apply rmatch_caps_extend in Hin as [l ->]. by apply bound_app.
Qed.

Lemma rmatch_captures r n : forall st st',
  captures r n = true -> In st' (rmatch r st) -> bound (m_caps st') n.
Proof.
  induction r; intros st st' Hc Hin; simpl in Hc; try discriminate.
  - simpl in Hin. apply in_flat_map in Hin as (st1 & H1 & H2).
    apply orb_true_iff in Hc as [Hc|Hc].
    + eapply rmatch_keeps_bound; [exact H2|]. eauto.
    + eauto.
  - simpl in Hin. apply andb_true_iff in Hc as [Hc1 Hc2].
    apply in_app_or in Hin as [H|H]; eauto.
  - simpl in Hin. apply in_map_iff in Hin as (st1 & <- & H1). simpl.
    apply bound_cons. apply orb_true_iff in Hc as [Hc|Hc].
    + left. by apply String.eqb_eq.
    + right. eauto.
Qed.

Lemma re_match_captures r s m n :
  captures r n = true -> re_match r s = Some m -> bound (m_caps m) n.
Proof.
  unfold re_match. intros Hc Hm.
  destruct (rmatch r (MState None s [])) as [|st' l] eqn:E; [done|].
  simpl in Hm. injection Hm as <-.
  eapply rmatch_captures; [exact Hc|]. rewrite E. by left.
Qed.

(** *** Renaming the groups of a pattern *)

Fixpoint rename (f : string -> string) r : regex :=
  match r with
  | Seq r1 r2 => Seq (rename f r1) (rename f r2)
  | Alt r1 r2 => Alt (rename f r1) (rename f r2)
  | Opt r1 => Opt (rename f r1)
  | Grp n r1 => Grp (f n) (rename f r1)
  | _ => r
  end.

Definition rename_caps (f : string -> string) c : caps :=
  map (fun '(n, v) => (f n, v)) c.

Definition rename_st (f : string -> string) st : mstate :=
  MState (m_prev st) (m_rest st) (rename_caps f (m_caps st)).

Lemma flat_map_map {A B C} (f : B -> list C) (g : A -> B) (l : list A) :
  flat_map f (map g l) = flat_map (fun x => f (g x)) l.
Proof. induction l as [|x l IH]; simpl; [done|]. by rewrite IH. Qed.

Lemma flat_map_all_nil {A B} (f : A -> list B) (l : list A) :
  (forall x, In x l -> f x = []) -> flat_map f l = [].
Proof.
  induction l as [|x l IH]; simpl; [done|]. intros H.
  rewrite (H x) by (by left). apply IH. intros y Hy. apply H. by right.
Qed.

Lemma map_flat_map {A B C} (f : A -> list B) (g : B -> C) (l : list A) :
  map g (flat_map f l) = flat_map (fun x => map g (f x)) l.
Proof. induction l as [|x l IH]; simpl; [done|]. by rewrite map_app, IH. Qed.

Lemma rmatch_rename f r : forall st,
  rmatch (rename f r) (rename_st f st) = map (rename_st f) (rmatch r st).
Proof.
  induction r; intros st; simpl; try done.
  - destruct (m_rest st) as [|x s']; [done|]. by destruct (p x).
  - rewrite IHr1, flat_map_map, map_flat_map.
    apply flat_map_ext. intros st1. apply IHr2.
  - by rewrite map_app, IHr1, IHr2.
  - by rewrite map_app, IHr.
  - rewrite !map_map. apply map_ext. by intros [pv s'].
  - rewrite IHr, !map_map. apply map_ext. by intros st1.
  - by destruct (m_prev st).
  - destruct (m_rest st) as [|x [|y s']]; try done. by destruct (x =? 10).
  - by destruct (xorb _ _).
Qed.

Lemma re_match_rename f r s :
  re_match (rename f r) s = rename_st f <$> re_match r s.
Proof.
  unfold re_match.
  change (MState None s []) with (rename_st f (MState None s [])).
  rewrite rmatch_rename. by destruct (rmatch r _).
Qed.

Lemma group_rename f c n :
  (forall a b, f a = f b -> a = b) ->
  group (rename_caps f c) (f n) = group c n.
Proof.
  intros Hinj. induction c as [|[m v] c IH]; [done|]. simpl.
  destruct (String.eqb_spec m n) as [->|Hne].
  - by rewrite String.eqb_refl.
  - destruct (String.eqb_spec (f m) (f n)) as [E|_]; [|done].
    by apply Hinj in E.
Qed.

End Matcher.

(** ** build_ytmusic_query is not idempotent *)

(** C1: on the input ["a,"] a second application of [build_ytmusic_query]
    changes the result: the first call returns ["a "] (the comma is replaced
    after the trimming), the second one ["a"]. *)
Theorem build_query_not_idempotent :
  build_ytmusic_query (KStr (lit "a,")) = lit "a " /\
  build_ytmusic_query (KStr (build_ytmusic_query (KStr (lit "a,")))) = lit "a" /\
  build_ytmusic_query (KStr (build_ytmusic_query (KStr (lit "a,"))))
    <> build_ytmusic_query (KStr (lit "a,")).
Proof. by vm_compute. Qed.

(** ** The extractor *)

Section ExtractionProperties.

Variable uni_alnum : char -> bool.
Variable uni_lower : str -> str.

Definition names_both (p : regex) : Prop :=
  captures p "artist" = true /\ captures p "title" = true.

Lemma patterns_name_both : Forall names_both patterns.
Proof. repeat constructor. Qed.

Lemma try_patterns_returns ps t :
  Forall names_both ps -> exists r, try_patterns uni_alnum ps t = Ok r.
Proof.
  induction 1 as [|p ps [Ha Hb] _ IH]; simpl; [by eexists|].
  destruct (re_match p t) as [m|] eqn:Em; [|done].
  destruct (re_match_captures _ _ _ _ Ha Em) as [a ->].
  destruct (re_match_captures _ _ _ _ Hb Em) as [b ->]. simpl.
  destruct (_ && _); [by eexists|done].
Qed.

(** C4: for every pair of arguments (strings or [None]) the extractor returns
    a pair of strings; no path raises. *)
Theorem extract_title_artist_total (video_title channel_title : option str) :
  exists title artist,
    extract_title_artist uni_alnum uni_lower video_title channel_title
    = Ok (title, artist).
Proof.
  unfold extract_title_artist, extract_with.
  destruct (try_patterns_returns patterns
              (_clean_title uni_alnum (or_empty video_title))
              patterns_name_both) as [r ->].
  simpl. destruct r as [[t a]|]; [by eauto|].
  destruct (_ && _); eauto.
Qed.

(** The pattern list without its second entry. *)
Definition patterns_without_second : list regex :=
  [ sep_pattern "artist" (ch "-") "title";
    sep_pattern "artist" em_dash "title" ].

Definition swap_names (n : string) : string :=
  if String.eqb n "artist" then "title"
  else if String.eqb n "title" then "artist" else n.

Lemma swap_names_inj a b : swap_names a = swap_names b -> a = b.
Proof.
  unfold swap_names.
  repeat match goal with
         | |- context [String.eqb ?x ?y] => destruct (String.eqb_spec x y)
         end; congruence.
Qed.

Lemma second_pattern_is_swap d :
  sep_pattern "title" d "artist" = rename swap_names (sep_pattern "artist" d "title").
Proof. reflexivity. Qed.

Lemma group_swapped_artist c :
  group (rename_caps swap_names c) "artist" = group c "title".
Proof. apply (group_rename swap_names c "title" swap_names_inj). Qed.

Lemma group_swapped_title c :
  group (rename_caps swap_names c) "title" = group c "artist".
Proof. apply (group_rename swap_names c "artist" swap_names_inj). Qed.

(** After the first pattern has been tried, the swapped one never returns. *)
Lemma try_patterns_skip_swapped d ps t :
  try_patterns uni_alnum
    (sep_pattern "artist" d "title" :: sep_pattern "title" d "artist" :: ps) t
  = try_patterns uni_alnum (sep_pattern "artist" d "title" :: ps) t.
Proof.
  cbn [try_patterns]. rewrite second_pattern_is_swap, re_match_rename.
  destruct (re_match (sep_pattern "artist" d "title") t) as [m|]; [|done].
  cbn [fmap option_fmap option_map rename_st m_caps].
  rewrite group_swapped_artist, group_swapped_title.
  destruct (group (m_caps m) "artist") as [a|e]; [|done].
  destruct (group (m_caps m) "title") as [b|e]; [|done]. simpl.
  destruct (nonempty (_clean_title uni_alnum a)),
           (nonempty (_clean_title uni_alnum b)); done.
Qed.

(** C5: the extractor returns the same result with and without the second
    pattern of its list. *)
Theorem second_pattern_is_dead (video_title channel_title : option str) :
  extract_title_artist uni_alnum uni_lower video_title channel_title
  = extract_with uni_alnum uni_lower patterns_without_second
      video_title channel_title.
Proof.
  unfold extract_title_artist, extract_with, patterns, patterns_without_second.
  by rewrite try_patterns_skip_swapped.
Qed.

End ExtractionProperties.

(** ** Scanning lemmas for re.sub *)

Definition take_while {A} (p : A -> bool) : list A -> list A :=
  fix go l :=
    match l with
    | [] => []
    | x :: l' => if p x then x :: go l' else []
    end.

(** The character before the position reached after reading [w]. *)
Definition last_or (prev : option char) (w : str) : option char :=
  match last w with
  | Some c => Some c
  | None => prev
  end.

Section Scanning.

Implicit Types (p : char -> bool) (s w : str) (prev : option char).

Lemma take_drop_while {A} (p : A -> bool) (l : list A) :
  take_while p l ++ drop_while p l = l.
Proof.
  induction l as [|x l IH]; simpl; [done|].
  destruct (p x); simpl; [by rewrite IH|done].
Qed.

Lemma take_while_all p w x s :
  forallb p w = true -> p x = false -> take_while p (w ++ x :: s) = w.
Proof.
  intros Hw Hx. induction w as [|c w IH]; simpl in *.
  - by rewrite Hx.
  - apply andb_true_iff in Hw as [-> Hw]. by rewrite IH.
Qed.

Lemma drop_while_all p w x s :
  forallb p w = true -> p x = false -> drop_while p (w ++ x :: s) = x :: s.
Proof.
  intros Hw Hx. induction w as [|c w IH]; simpl in *.
  - by rewrite Hx.
  - apply andb_true_iff in Hw as [-> Hw]. by rewrite IH.
Qed.

Lemma drop_while_forall {A} (p : A -> bool) (l : list A) :
  forallb p l = true -> drop_while p l = [].
Proof.
  induction l as [|x l IH]; simpl; [done|].
  intros [-> H]%andb_true_iff. auto.
Qed.

Lemma forallb_drop_while {A} (p q : A -> bool) (l : list A) :
  forallb q l = true -> forallb q (drop_while p l) = true.
Proof.
  induction l as [|x l IH]; simpl; [done|].
  intros H. destruct (p x); [|done].
  apply andb_true_iff in H as [_ H]. auto.
Qed.

Lemma last_or_cons prev c w : last_or prev (c :: w) = last_or (Some c) w.
Proof. unfold last_or. rewrite last_cons. by destruct (last w). Qed.

(** The first alternative of a greedy repetition is the longest run. *)
Lemma rep_from_none p : forall s lo prev,
  (length (take_while p s) < lo)%nat -> rep_from p lo prev s = [].
Proof.
  induction s as [|c s IH]; intros lo prev Hlt; simpl in *.
  - destruct lo; [lia|done].
  - destruct (p c); simpl in Hlt.
    + destruct lo as [|lo]; [lia|]. simpl. rewrite IH; [done|lia].
    + destruct lo; [lia|done].
Qed.

Lemma rep_from_head p : forall s lo prev,
  (lo <= length (take_while p s))%nat ->
  exists tl, rep_from p lo prev s
             = (last_or prev (take_while p s), drop_while p s) :: tl.
Proof.
  induction s as [|c s IH]; intros lo prev Hle; simpl in *.
  - assert (lo = 0%nat) as -> by lia. by eexists.
  - destruct (p c); simpl in Hle.
    + destruct (IH (pred lo) (Some c)) as [tl ->]; [lia|].
      rewrite last_or_cons. by eexists.
    + assert (lo = 0%nat) as -> by lia. by eexists.
Qed.

(** Every alternative of a repetition leaves a suffix of the text. *)
Lemma rep_from_suffix p : forall s lo prev pv s',
  In (pv, s') (rep_from p lo prev s) ->
  exists w, s = w ++ s' /\ forallb p w = true.
Proof.
  induction s as [|c s IH]; intros lo prev pv s' Hin; simpl in Hin.
  - destruct lo; [|done]. destruct Hin as [[= <- <-]|[]]. by exists [].
  - assert (In (pv, s') (match lo with O => [(prev, c :: s)] | S _ => [] end)
            -> exists w, c :: s = w ++ s' /\ forallb p w = true) as Hhere.
    { destruct lo; [|done]. intros [[= <- <-]|[]]. by exists []. }
    destruct (p c) eqn:Hc; [|by auto].
    apply in_app_or in Hin as [Hin|Hin]; [|by auto].
    apply IH in Hin as (w & -> & Hw). exists (c :: w). simpl. by rewrite Hc.
Qed.

Section Sub.

Variable r : regex.
Variable repl : str.

Lemma first_len_false ls : first_len false ls = head ls.
Proof.
  unfold first_len. simpl. rewrite forallb_filter_id; [done|].
  by apply forallb_forall.
Qed.

Lemma sub_go_copy prev c s :
  rmatch r (MState prev (c :: s) []) = [] ->
  sub_go r repl prev (c :: s) 0 = c :: sub_go r repl (Some c) s 0.
Proof.
  intros H. cbn [sub_go]. unfold match_lens. by rewrite H.
Qed.

Lemma sub_go_end prev :
  rmatch r (MState prev [] []) = [] -> sub_go r repl prev [] 0 = [].
Proof.
  intros H. cbn [sub_go]. unfold match_lens. by rewrite H.
Qed.

Lemma sub_go_hit prev c s st tl :
  rmatch r (MState prev (c :: s) []) = st :: tl ->
  (length (m_rest st) <= length s)%nat ->
  sub_go r repl prev (c :: s) 0
  = repl ++ sub_go r repl (Some c) s (length s - length (m_rest st)).
Proof.
  intros H Hlen. cbn [sub_go]. unfold match_lens. rewrite H.
  rewrite first_len_false. cbn [map head].
  replace (length (c :: s) - length (m_rest st))%nat
    with (S (length s - length (m_rest st))) by (simpl; lia).
  done.
Qed.

Lemma sub_go_skip : forall k s prev,
  (k <= length s)%nat ->
  sub_go r repl prev s k
  = sub_go r repl (last_or prev (take k s)) (drop k s) 0.
Proof.
  induction k as [|k IH]; intros s prev Hk.
  - by rewrite take_0, drop_0.
  - destruct s as [|c s]; simpl in Hk; [lia|].
    cbn [sub_go]. rewrite IH by lia.
    by rewrite firstn_cons, last_or_cons, skipn_cons.
Qed.

End Sub.

End Scanning.

(** ** The pipe statement of _clean_title *)

Definition pipe : char := ch "|".

(** The specification's reading of that statement: cut the text at its first
    pipe character. *)
Definition spec_truncate_at_pipe (s : str) : str :=
  take_while (chr_not pipe) s.

(** No whitespace character of [s] is directly followed by a pipe. *)
Fixpoint ws_pipe_free (s : str) : bool :=
  match s with
  | c :: s' =>
      negb (isspace c && opt_word (chr_is pipe) (head s')) && ws_pipe_free s'
  | [] => true
  end.

Section PipeTail.

Implicit Types (s a w b rest : str) (prev : option char).

Lemma rmatch_pipe_tail_unfold st :
  rmatch re_pipe_tail st
  = flat_map
      (fun st1 =>
         flat_map (rmatch (cat [Rep true 0 isspace; Rep true 0 dot; Eol]))
                  (rmatch (Cls (chr_is pipe)) st1))
      (rmatch (Rep true 1 isspace) st).
Proof. reflexivity. Qed.

(** The text left by a whitespace run inside a pipe-free stretch does not
    begin with a pipe. *)
Lemma rep_from_ws_pipe_free rest : forall a lo prev pv s',
  ws_pipe_free a = true ->
  rest = [] \/ (a <> [] /\ opt_word isspace (last a) = false) ->
  In (pv, s') (rep_from isspace lo prev (a ++ rest)) ->
  s' = a ++ rest \/ head s' <> Some pipe.
Proof.
  induction a as [|c a IH]; intros lo prev pv s' Hfree Hend Hin.
  - destruct Hend as [->|[? _]]; [|done]. simpl in Hin.
    destruct lo; [|done]. destruct Hin as [[= <- <-]|[]]. by left.
  - simpl in Hin. simpl in Hfree. apply andb_true_iff in Hfree as [Hc Hfree].
    assert (In (pv, s')
              (match lo with O => [(prev, c :: a ++ rest)] | S _ => [] end)
            -> s' = (c :: a) ++ rest \/ head s' <> Some pipe) as Hhere.
    { destruct lo; [|done]. intros [[= <- <-]|[]]. by left. }
    destruct (isspace c) eqn:Hws; [|by auto].
    apply in_app_or in Hin as [Hin|Hin]; [|by auto].
    right. simpl in Hc. apply negb_true_iff in Hc.
    assert (rest = [] \/ a <> [] /\ opt_word isspace (last a) = false) as Hend'.
    { destruct Hend as [->|[_ Hl]]; [by left|]. right.
      destruct a as [|d a]; [simpl in Hl; congruence|].
      split; [done|]. by rewrite last_cons_cons in Hl. }
    destruct (IH _ _ _ _ Hfree Hend' Hin) as [->|H]; [|done].
    destruct a as [|d a]; simpl in *.
    + destruct Hend' as [->|[? _]]; done.
    + unfold chr_is in Hc. intros [= ->]. by rewrite N.eqb_refl in Hc.
Qed.

Lemma pipe_tail_no_match a rest prev :
  ws_pipe_free a = true ->
  rest = [] \/ opt_word isspace (last a) = false ->
  a <> [] ->
  rmatch re_pipe_tail (MState prev (a ++ rest) []) = [].
Proof.
  intros Hfree Hend Hne. rewrite rmatch_pipe_tail_unfold.
  apply flat_map_all_nil. intros st1 Hin. cbn [rmatch m_prev m_rest m_caps] in Hin.
  apply in_map_iff in Hin as ([pv s'] & <- & Hin).
  destruct a as [|c a]; [done|]. cbn [app rep_from pred] in Hin.
  destruct (isspace c) eqn:Hws; [|done]. rewrite app_nil_r in Hin.
  simpl in Hfree. apply andb_true_iff in Hfree as [Hc Hfree].
  rewrite Hws in Hc. simpl in Hc. apply negb_true_iff in Hc.
  assert (head s' <> Some pipe) as Hhd.
  { assert (rest = [] \/ a <> [] /\ opt_word isspace (last a) = false) as Hend'.
    { destruct Hend as [->|Hl]; [by left|]. right.
      destruct a as [|d a]; [simpl in Hl; congruence|].
      split; [done|]. by rewrite last_cons_cons in Hl. }
    destruct (rep_from_ws_pipe_free rest a _ _ _ _ Hfree Hend' Hin) as [->|H];
      [|done].
    destruct a as [|d a]; simpl in *.
    - destruct Hend' as [->|[? _]]; done.
    - unfold chr_is in Hc. intros [= ->]. by rewrite N.eqb_refl in Hc. }
  cbn [rmatch m_rest]. destruct s' as [|x s']; [done|].
  unfold chr_is. destruct (N.eqb_spec x pipe) as [->|_]; [|done].
  by destruct Hhd.
Qed.

Lemma sub_go_pipe_prefix rest : forall a prev,
  ws_pipe_free a = true ->
  rest = [] \/ opt_word isspace (last a) = false ->
  sub_go re_pipe_tail [] prev (a ++ rest) 0
  = a ++ sub_go re_pipe_tail [] (last_or prev a) rest 0.
Proof.
  induction a as [|c a IH]; intros prev Hfree Hend; [done|].
  assert (rmatch re_pipe_tail (MState prev ((c :: a) ++ rest) []) = []) as Hno
    by (by apply pipe_tail_no_match).
  rewrite <- !app_comm_cons in *. rewrite sub_go_copy by done.
  rewrite IH, last_or_cons; [done| |].
  - simpl in Hfree. by apply andb_true_iff in Hfree as [_ ?].
  - destruct Hend as [->|Hl]; [by left|]. right.
    destruct a as [|d a]; [done|]. by rewrite last_cons_cons in Hl.
Qed.

(** From a whitespace run in front of a pipe the pattern matches through to
    the end of a one-line text. *)
Lemma pipe_tail_match prev w b :
  w <> [] -> forallb isspace w = true -> forallb dot b = true ->
  exists pv cs tl,
    rmatch re_pipe_tail (MState prev (w ++ pipe :: b) []) = MState pv [] cs :: tl.
Proof.
  intros Hne Hw Hb. rewrite rmatch_pipe_tail_unfold.
  cbn [rmatch m_prev m_rest m_caps].
  destruct (rep_from_head isspace (w ++ pipe :: b) 1 prev) as [tl1 ->].
  { rewrite take_while_all by done. destruct w; [done|simpl; lia]. }
  rewrite drop_while_all by done.
  cbn [map flat_map rmatch m_rest m_caps m_prev]. unfold chr_is at 1.
  rewrite N.eqb_refl. cbn [flat_map cat rmatch m_rest m_caps m_prev].
  rewrite app_nil_r.
  destruct (rep_from_head isspace b 0 (Some pipe)) as [tl2 ->]; [lia|].
  cbn [map flat_map rmatch m_rest m_caps m_prev].
  destruct (rep_from_head dot (drop_while isspace b) 0
              (last_or (Some pipe) (take_while isspace b))) as [tl3 ->]; [lia|].
  rewrite (drop_while_forall dot) by (by apply forallb_drop_while).
  cbn [map flat_map rmatch m_rest m_caps m_prev].
  rewrite <- !app_assoc. cbn [app]. by eexists _, _, _.
Qed.

Lemma sub_go_pipe_hit prev w b :
  w <> [] -> forallb isspace w = true -> forallb dot b = true ->
  sub_go re_pipe_tail [] prev (w ++ pipe :: b) 0 = [].
Proof.
  intros Hne Hw Hb.
  destruct (pipe_tail_match prev w b Hne Hw Hb) as (pv & cs & tl & Hm).
  destruct w as [|c w]; [done|]. cbn [app] in *.
  rewrite (sub_go_hit _ _ _ _ _ _ _ Hm) by (simpl; lia).
  cbn [m_rest length app]. rewrite Nat.sub_0_r.
  rewrite sub_go_skip by done.
  rewrite drop_all. by apply sub_go_end.
Qed.

End PipeTail.

Section CleanProperties.

Variable uni_alnum : char -> bool.

(** The specification's [clean]: the statements of [_clean_title] with the
    pipe statement replaced by the cut at the first pipe. *)
Definition spec_clean (s : str) : str :=
  strip (squeeze (spec_truncate_at_pipe
    (drop_vocab uni_alnum (drop_paren_vocab (drop_bracketed s))))).

End CleanProperties.

(** C2, as amended: the pipe statement cuts a one-line text at the first pipe
    that directly follows whitespace, and removes that whitespace, the pipe
    and what follows it; the text before it, in which pipes may occur without
    whitespace in front, is left as it is. *)
Theorem drop_pipe_tail_cuts_after_whitespace (a w b : str) :
  ws_pipe_free a = true ->
  opt_word isspace (last a) = false ->
  w <> [] -> forallb isspace w = true ->
  forallb dot b = true ->
  drop_pipe_tail (a ++ w ++ pipe :: b) = a /\ drop_pipe_tail a = a.
Proof.
  intros Hfree Hlast Hne Hw Hb. unfold drop_pipe_tail, re_sub. split.
  - rewrite sub_go_pipe_prefix by auto.
    rewrite sub_go_pipe_hit by done. by rewrite app_nil_r.
  - rewrite <- (app_nil_r a) at 1.
    rewrite sub_go_pipe_prefix by auto.
    rewrite sub_go_end by done. by rewrite app_nil_r.
Qed.

Lemma drop_pipe_tail_cuts_after_whitespace_witness :
  drop_pipe_tail (lit "a|b" ++ lit " " ++ pipe :: lit "c") = lit "a|b"
  /\ drop_pipe_tail (lit "a|b") = lit "a|b".
Proof.
  apply (drop_pipe_tail_cuts_after_whitespace (lit "a|b") (lit " ") (lit "c"));
    by vm_compute.
Defined.

(** The statement as the specification words it fails on ["a|b"]: the code keeps
    the pipe and the text after it. *)
Lemma clean_keeps_unspaced_pipe :
  _clean_title no_alnum (lit "a|b") = lit "a|b"
  /\ spec_clean no_alnum (lit "a|b") = lit "a"
  /\ _clean_title no_alnum (lit "a|b") <> spec_clean no_alnum (lit "a|b").
Proof. by vm_compute. Qed.

(** ** Idempotence of _clean_title *)

(** No two whitespace characters of [s] are adjacent. *)
Fixpoint no_ws_run (s : str) : bool :=
  match s with
  | c :: s' => negb (isspace c && opt_word isspace (head s')) && no_ws_run s'
  | [] => true
  end.

Definition dash_or_pipe (c : char) : bool := (c =? ch "-") || (c =? pipe).

(** [s] neither begins nor ends with a hyphen or a pipe. *)
Definition edges_free (s : str) : bool :=
  negb (opt_word dash_or_pipe (head s)) && negb (opt_word dash_or_pipe (last s)).

Section Squeeze.

Implicit Types (s t u : str) (p : char -> bool).

Lemma rmatch_spaces prev s :
  rmatch re_spaces (MState prev s [])
  = map (fun '(pv, s') => MState pv s' []) (rep_from isspace 2 prev s).
Proof. reflexivity. Qed.

Lemma length_drop_while p s : (length (drop_while p s) <= length s)%nat.
Proof. induction s as [|c s IH]; simpl; [done|]. destruct (p c); simpl; lia. Qed.

Lemma drop_to_drop_while p s :
  drop (length s - length (drop_while p s)) s = drop_while p s.
Proof.
  pose proof (take_drop_while p s) as E. revert E.
  generalize (take_while p s) (drop_while p s). intros tw dw <-.
  rewrite length_app.
  replace (length tw + length dw - length dw)%nat with (length tw) by lia.
  apply drop_app_length.
Qed.

Lemma head_drop_while p s : opt_word p (head (drop_while p s)) = false.
Proof.
  induction s as [|c s IH]; simpl; [done|].
  destruct (p c) eqn:E; [done|]. simpl. by rewrite E.
Qed.

Lemma drop_while_id p s : opt_word p (head s) = false -> drop_while p s = s.
Proof. destruct s as [|c s]; simpl; [done|]. by intros ->. Qed.

Lemma no_ws_run_cons c s :
  no_ws_run s = true -> isspace c && opt_word isspace (head s) = false ->
  no_ws_run (c :: s) = true.
Proof. intros Hs Hc. simpl. by rewrite Hc, Hs. Qed.

(** Where the whitespace run at the head of [s] is shorter than two, the
    scan copies one character. *)
Lemma sub_go_spaces_copy prev c s :
  isspace c && opt_word isspace (head s) = false ->
  sub_go re_spaces (lit " ") prev (c :: s) 0
  = c :: sub_go re_spaces (lit " ") (Some c) s 0.
Proof.
  intros H. apply sub_go_copy. rewrite rmatch_spaces, rep_from_none; [done|].
  simpl. destruct (isspace c); simpl in *; [|lia].
  destruct s as [|d s]; simpl in *; [lia|]. rewrite H. simpl. lia.
Qed.

(** A run of two or more is replaced by one space, and the scan resumes
    after the run. *)
Lemma sub_go_spaces_hit prev c d s :
  isspace c = true -> isspace d = true ->
  exists pv,
    sub_go re_spaces (lit " ") prev (c :: d :: s) 0
    = ch " " :: sub_go re_spaces (lit " ") pv (drop_while isspace s) 0.
Proof.
  intros Hc Hd.
  destruct (rep_from_head isspace (c :: d :: s) 2 prev) as [tl Hh].
  { simpl. rewrite Hc, Hd. simpl. lia. }
  assert (drop_while isspace (c :: d :: s) = drop_while isspace (d :: s)) as Hdw
    by (simpl; by rewrite Hc).
  rewrite Hdw in Hh.
  pose proof (length_drop_while isspace (d :: s)) as Hlen.
  erewrite sub_go_hit; [| by rewrite rmatch_spaces, Hh | done ].
  cbn [m_rest]. rewrite sub_go_skip by lia.
  rewrite drop_to_drop_while. simpl. rewrite Hd. by eexists.
Qed.

Lemma squeezed_no_ws_run : forall n s prev,
  (length s <= n)%nat ->
  let o := sub_go re_spaces (lit " ") prev s 0 in
  no_ws_run o = true /\
  (opt_word isspace (head s) = false -> opt_word isspace (head o) = false).
Proof.
  induction n as [|n IH]; intros s prev Hlen o; subst o.
  - destruct s; [|simpl in Hlen; lia]. by rewrite sub_go_end.
  - destruct s as [|c s]; [by rewrite sub_go_end|]. simpl in Hlen.
    destruct (isspace c && opt_word isspace (head s)) eqn:E.
    + apply andb_true_iff in E as [Hc Hd].
      destruct s as [|d s]; [done|]. simpl in Hd.
      destruct (sub_go_spaces_hit prev c d s Hc Hd) as [pv ->].
      pose proof (length_drop_while isspace s) as Hl.
      destruct (IH (drop_while isspace s) pv) as [H1 H2]; [simpl in Hlen; lia|].
      specialize (H2 (head_drop_while _ _)). split.
      * apply no_ws_run_cons; [done|]. rewrite H2. by rewrite andb_false_r.
      * simpl. by rewrite Hc.
    + rewrite sub_go_spaces_copy by done.
      destruct (IH s (Some c)) as [H1 H2]; [lia|]. split.
      * apply no_ws_run_cons; [done|].
        destruct (isspace c); [|done]. simpl in *. auto.
      * done.
Qed.

Lemma spaces_fixed : forall s prev,
  no_ws_run s = true -> sub_go re_spaces (lit " ") prev s 0 = s.
Proof.
  induction s as [|c s IH]; intros prev H; [by rewrite sub_go_end|].
  simpl in H. apply andb_true_iff in H as [Hc Hs].
  apply negb_true_iff in Hc.
  rewrite sub_go_spaces_copy by done. by rewrite IH.
Qed.

(** *** Trimming *)

Lemma no_ws_run_suffix l s : no_ws_run (l ++ s) = true -> no_ws_run s = true.
Proof.
  induction l as [|c l IH]; [done|]. simpl.
  intros [_ H]%andb_true_iff. auto.
Qed.

Lemma no_ws_run_prefix s l : no_ws_run (s ++ l) = true -> no_ws_run s = true.
Proof.
  induction s as [|c s IH]; [done|]. simpl.
  intros [Hc H]%andb_true_iff. rewrite IH by done. rewrite andb_true_r.
  destruct s as [|d s]; simpl in *; [|done].
  by rewrite andb_false_r.
Qed.

Lemma strip_chars_infix p s : exists l r, s = l ++ strip_chars p s ++ r.
Proof.
  unfold strip_chars.
  exists (take_while p s), (rev (take_while p (rev (drop_while p s)))).
  rewrite <- rev_app_distr, take_drop_while, rev_involutive.
  by rewrite take_drop_while.
Qed.

Lemma no_ws_run_strip_chars p s :
  no_ws_run s = true -> no_ws_run (strip_chars p s) = true.
Proof.
  intros H. destruct (strip_chars_infix p s) as (l & r & E).
  rewrite E in H. by apply no_ws_run_suffix, no_ws_run_prefix in H.
Qed.

Lemma last_rev {A} (l : list A) : last (rev l) = head l.
Proof. destruct l as [|x l]; [done|]. simpl. apply last_snoc. Qed.

Lemma head_rev {A} (l : list A) : head (rev l) = last l.
Proof. rewrite <- (rev_involutive l) at 2. by rewrite last_rev. Qed.

Lemma strip_chars_id p s :
  opt_word p (head s) = false -> opt_word p (last s) = false ->
  strip_chars p s = s.
Proof.
  intros Hh Hl. unfold strip_chars. rewrite (drop_while_id p s) by done.
  rewrite drop_while_id; [by rewrite rev_involutive|].
  by rewrite head_rev.
Qed.

Lemma last_drop_while p s :
  drop_while p s <> [] -> last (drop_while p s) = last s.
Proof.
  intros Hne. rewrite <- (take_drop_while p s) at 2.
  rewrite last_app. by destruct (last (drop_while p s)) eqn:E;
    [|apply last_None in E].
Qed.

Lemma strip_chars_edges p s :
  opt_word p (head (strip_chars p s)) = false
  /\ opt_word p (last (strip_chars p s)) = false.
Proof.
  unfold strip_chars. split.
  - rewrite head_rev.
    destruct (drop_while p (rev (drop_while p s))) as [|c l] eqn:E; [done|].
    rewrite <- E, last_drop_while by (by rewrite E).
    rewrite last_rev. apply head_drop_while.
  - rewrite last_rev. apply head_drop_while.
Qed.

End Squeeze.

(** *** Brackets

    After the first statement of [_clean_title] no opening bracket has a
    closing bracket behind it, and the later statements keep it so. *)

Definition has (x : char) (s : str) : bool := existsb (chr_is x) s.

Fixpoint bracket_free (s : str) : bool :=
  match s with
  | [] => true
  | c :: s' =>
      (negb (c =? ch "[") || negb (has (ch "]") s')) && bracket_free s'
  end.

Section Brackets.

Implicit Types (s t l m : str) (prev : option char).

#[local] Arguments ch : simpl never.

Lemma has_app x l m : has x (l ++ m) = has x l || has x m.
Proof. apply existsb_app. Qed.

Lemma bracket_free_suffix l m : bracket_free (l ++ m) = true -> bracket_free m = true.
Proof.
  induction l as [|c l IH]; [done|]. simpl.
  intros [_ H]%andb_true_iff. auto.
Qed.

Lemma bracket_free_prefix m l : bracket_free (m ++ l) = true -> bracket_free m = true.
Proof.
  induction m as [|c m IH]; [done|]. cbn [app bracket_free].
  intros [Hc H]%andb_true_iff. rewrite IH by done. rewrite andb_true_r.
  rewrite has_app in Hc. destruct (c =? ch "["); [|done]. cbn [negb orb] in *.
  by destruct (has (ch "]") m).
Qed.

Lemma bracket_free_strip_chars p s :
  bracket_free s = true -> bracket_free (strip_chars p s) = true.
Proof.
  intros H. destruct (strip_chars_infix p s) as (l & r & E).
  rewrite E in H. by apply bracket_free_suffix, bracket_free_prefix in H.
Qed.

(** A replacement without brackets in front changes nothing. *)
Lemma bracket_free_app_plain l m :
  has (ch "[") l = false -> bracket_free (l ++ m) = bracket_free m.
Proof.
  induction l as [|c l IH]; [done|]. cbn [app bracket_free has existsb].
  intros [Hc Hl]%orb_false_iff. rewrite IH by done.
  unfold chr_is in Hc. by rewrite Hc.
Qed.

Section SubKeeps.

Variable r : regex.
Variable repl : str.
Hypothesis repl_no_open : has (ch "[") repl = false.
Hypothesis repl_no_close : has (ch "]") repl = false.

(** [re.sub] brings in no closing bracket. *)
Lemma sub_go_has_close : forall s prev k,
  has (ch "]") (sub_go r repl prev s k) = true -> has (ch "]") s = true.
Proof.
  induction s as [|c s IH]; intros prev k.
  - destruct k; [|done]. cbn [sub_go].
    destruct (first_len false _) as [[|n]|]; try done;
      [destruct (first_len true _) as [[|n]|]|];
      rewrite ?has_app, ?repl_no_close; done.
  - assert (forall n, has (ch "]") (sub_go r repl (Some c) s n) = true ->
                      has (ch "]") (c :: s) = true) as Hnext.
    { intros n H. apply IH in H. simpl. by rewrite H, orb_true_r. }
    assert (has (ch "]") (c :: sub_go r repl (Some c) s 0) = true ->
            has (ch "]") (c :: s) = true) as Hcopy.
    { simpl. intros [H|H]%orb_true_iff; [by rewrite H|].
      apply IH in H. by rewrite H, orb_true_r. }
    destruct k; [|apply Hnext]. cbn [sub_go].
    destruct (first_len false _) as [[|n]|]; [| |done].
    + destruct (first_len true _) as [[|n]|];
        rewrite ?has_app, ?repl_no_close; cbn [orb]; eauto.
    + rewrite has_app, repl_no_close. apply Hnext.
Qed.

Lemma sub_go_bracket_free : forall s prev k,
  bracket_free s = true -> bracket_free (sub_go r repl prev s k) = true.
Proof.
  induction s as [|c s IH]; intros prev k Hs.
  - destruct k; [|done]. cbn [sub_go].
    destruct (first_len false _) as [[|n]|]; try done;
      [destruct (first_len true _) as [[|n]|]|];
      rewrite ?bracket_free_app_plain by done; done.
  - simpl in Hs. apply andb_true_iff in Hs as [Hc Hs].
    assert (bracket_free (c :: sub_go r repl (Some c) s 0) = true) as Hcopy.
    { simpl. rewrite IH by done. rewrite andb_true_r.
      destruct (c =? ch "["); [|done]. simpl in *.
      destruct (has (ch "]") (sub_go r repl (Some c) s 0)) eqn:E; [|done].
      apply sub_go_has_close in E. by rewrite E in Hc. }
    destruct k; [|by apply IH]. cbn [sub_go].
    destruct (first_len false _) as [[|n]|]; [| |done].
    + destruct (first_len true _) as [[|n]|];
        rewrite ?bracket_free_app_plain by done; auto.
    + rewrite bracket_free_app_plain by done. auto.
Qed.

End SubKeeps.

Lemma rmatch_bracketed_unfold prev c s :
  rmatch re_bracketed (MState prev (c :: s) [])
  = if c =? ch "["
    then flat_map (rmatch (Cls (chr_is (ch "]"))))
           (map (fun '(pv, s') => MState pv s' [])
                (rep_from (chr_not (ch "]")) 0 (Some c) s))
    else [].
Proof.
  change re_bracketed
    with (Seq (Cls (chr_is (ch "[")))
              (Seq (Rep true 0 (chr_not (ch "]"))) (Cls (chr_is (ch "]"))))).
  cbn [rmatch m_rest m_caps m_prev].
  change (chr_is (ch "[") c) with (c =? ch "[").
  destruct (c =? ch "["); [|done].
  cbn [flat_map rmatch m_rest m_caps m_prev]. by rewrite app_nil_r.
Qed.

Lemma bracketed_no_match prev c s :
  negb (c =? ch "[") || negb (has (ch "]") s) = true ->
  rmatch re_bracketed (MState prev (c :: s) []) = [].
Proof.
  intros H. rewrite rmatch_bracketed_unfold.
  destruct (c =? ch "["); [|done]. simpl in H. apply negb_true_iff in H.
  apply flat_map_all_nil. intros st Hin.
  apply in_map_iff in Hin as ([pv s'] & <- & Hin).
  apply rep_from_suffix in Hin as (w & -> & _).
  rewrite has_app in H. apply orb_false_iff in H as [_ H].
  cbn [rmatch m_rest]. destruct s' as [|x s']; [done|].
  simpl in H. apply orb_false_iff in H as [H _]. by rewrite H.
Qed.

Lemma drop_while_close s :
  has (ch "]") s = true ->
  exists rest, drop_while (chr_not (ch "]")) s = ch "]" :: rest.
Proof.
  induction s as [|c s IH]; [done|]. simpl. unfold chr_not, chr_is.
  destruct (N.eqb_spec c (ch "]")) as [->|_]; simpl; [by eexists|]. auto.
Qed.

Lemma bracketed_match prev s :
  has (ch "]") s = true ->
  exists st tl,
    rmatch re_bracketed (MState prev (ch "[" :: s) []) = st :: tl
    /\ (length (m_rest st) <= length s)%nat.
Proof.
  intros H. rewrite rmatch_bracketed_unfold. rewrite N.eqb_refl.
  destruct (rep_from_head (chr_not (ch "]")) s 0 (Some (ch "["))) as [tl ->];
    [lia|].
  destruct (drop_while_close s H) as [rest E].
  pose proof (length_drop_while (chr_not (ch "]")) s) as Hlen.
  rewrite E in *. cbn [map flat_map rmatch m_rest m_caps m_prev].
  unfold chr_is at 1. rewrite N.eqb_refl. cbn [app].
  eexists _, _. split; [done|]. simpl in *. lia.
Qed.

Lemma bracketed_end prev : rmatch re_bracketed (MState prev [] []) = [].
Proof. reflexivity. Qed.

Lemma drop_bracketed_bracket_free : forall n s prev,
  (length s <= n)%nat ->
  bracket_free (sub_go re_bracketed [] prev s 0) = true.
Proof.
  induction n as [|n IH]; intros s prev Hlen.
  - destruct s; [|simpl in Hlen; lia]. by rewrite sub_go_end.
  - destruct s as [|c s]; [by rewrite sub_go_end|]. simpl in Hlen.
    destruct (negb (c =? ch "[") || negb (has (ch "]") s)) eqn:E.
    + rewrite sub_go_copy by (by apply bracketed_no_match).
      simpl. rewrite IH by lia. rewrite andb_true_r.
      destruct (c =? ch "["); [|done]. simpl in *.
      destruct (has (ch "]") (sub_go re_bracketed [] (Some c) s 0)) eqn:Eh;
        [|done].
      apply sub_go_has_close in Eh; [|done]. by rewrite Eh in E.
    + apply orb_false_iff in E as [Ec Eh].
      apply negb_false_iff in Ec, Eh. apply N.eqb_eq in Ec as ->.
      destruct (bracketed_match prev s Eh) as (st & tl & Hm & Hl).
      rewrite (sub_go_hit _ _ _ _ _ _ _ Hm Hl). cbn [app].
      rewrite sub_go_skip by lia. apply IH. rewrite length_drop. lia.
Qed.

Lemma bracketed_fixed : forall t prev,
  bracket_free t = true -> sub_go re_bracketed [] prev t 0 = t.
Proof.
  induction t as [|c t IH]; intros prev H; [by rewrite sub_go_end|].
  simpl in H. apply andb_true_iff in H as [Hc Ht].
  rewrite sub_go_copy by (by apply bracketed_no_match). by rewrite IH.
Qed.

End Brackets.

Section Idempotence.

Variable uni_alnum : char -> bool.

Lemma clean_title_no_ws_run s : no_ws_run (_clean_title uni_alnum s) = true.
Proof.
  unfold _clean_title, strip, squeeze.
  do 2 apply no_ws_run_strip_chars.
  by apply (squeezed_no_ws_run _ _ None (Nat.le_refl _)).
Qed.

Lemma clean_title_bracket_free s :
  bracket_free (_clean_title uni_alnum s) = true.
Proof.
  unfold _clean_title, strip, squeeze, drop_pipe_tail, drop_vocab,
    drop_paren_vocab, drop_bracketed, re_sub.
  do 2 apply bracket_free_strip_chars.
  do 4 (apply sub_go_bracket_free; [done|done|]).
  by apply (drop_bracketed_bracket_free _ _ None (Nat.le_refl _)).
Qed.

Lemma clean_title_edges s :
  opt_word isspace (head (_clean_title uni_alnum s)) = false
  /\ opt_word isspace (last (_clean_title uni_alnum s)) = false.
Proof. apply strip_chars_edges. Qed.

Lemma in_edge_set_split c :
  in_edge_set c = true -> isspace c = true \/ dash_or_pipe c = true.
Proof.
  unfold in_edge_set, dash_or_pipe.
  destruct (N.eqb_spec c (ch " ")) as [->|_]; [by left|]. simpl. by right.
Qed.

Lemma not_in_edge_set (o : option char) :
  opt_word isspace o = false -> opt_word dash_or_pipe o = false ->
  opt_word in_edge_set o = false.
Proof.
  destruct o as [c|]; [|done]. simpl. intros H1 H2.
  destruct (in_edge_set c) eqn:E; [|done].
  apply in_edge_set_split in E as [E|E]; congruence.
Qed.

(** C3, as amended: a second application of [_clean_title] changes nothing
    when the first result holds no further text for the statements that
    remove parenthesised vocabulary, standalone vocabulary and the pipe
    tail, and neither begins nor ends with a hyphen or a pipe.  (Brackets
    never need a second pass, nor does whitespace.) *)
Theorem clean_title_idempotent_on_clean_results (s : str) :
  let t := _clean_title uni_alnum s in
  drop_paren_vocab t = t ->
  drop_vocab uni_alnum t = t ->
  drop_pipe_tail t = t ->
  edges_free t = true ->
  _clean_title uni_alnum t = t.
Proof.
  intros t H2 H3 H4 He.
  destruct (clean_title_edges s) as [Hh Hl]. fold t in Hh, Hl.
  apply andb_true_iff in He as [Heh Hel]. apply negb_true_iff in Heh, Hel.
  assert (drop_bracketed t = t) as H1
    by apply bracketed_fixed, clean_title_bracket_free.
  unfold _clean_title. rewrite H1, H2, H3, H4.
  unfold squeeze, re_sub. rewrite spaces_fixed by apply clean_title_no_ws_run.
  rewrite strip_chars_id by (by apply not_in_edge_set).
  by apply strip_chars_id.
Qed.

End Idempotence.

Lemma clean_title_idempotent_on_clean_results_witness :
  _clean_title no_alnum (_clean_title no_alnum (lit "IU - Good Day (Official MV)"))
  = _clean_title no_alnum (lit "IU - Good Day (Official MV)").
Proof.
  apply (clean_title_idempotent_on_clean_results no_alnum
           (lit "IU - Good Day (Official MV)")); by vm_compute.
Defined.

(** Each hypothesis of the amended statement is needed: the statements
    run once and in sequence, so one pass can leave text for an earlier or
    for its own statement. *)
Example clean_title_second_pass_examples :
  (* the trimming of " -|" exposes a hyphen behind a tab *)
  _clean_title no_alnum (lit "a -" ++ [9]) = lit "a -"
  /\ _clean_title no_alnum (lit "a -") = lit "a"
  (* removing the inner parenthesis leaves an outer one to remove *)
  /\ _clean_title no_alnum (lit "((mv)performance)") = lit "(performance)"
  /\ _clean_title no_alnum (lit "(performance)") = []
  (* two line feeds behind the pipe tail become one space, trimmed away *)
  /\ _clean_title no_alnum (lit "a |b" ++ [10; 10]) = lit "a |b"
  /\ _clean_title no_alnum (lit "a |b") = lit "a".
Proof. by vm_compute. Qed.

(** Idempotence fails on ["lyric mv video"]: the first application removes
    ["mv"] and leaves ["lyric video"], which the second application removes
    as a whole. *)
Lemma clean_title_not_idempotent :
  _clean_title no_alnum (lit "lyric mv video") = lit "lyric video"
  /\ _clean_title no_alnum (_clean_title no_alnum (lit "lyric mv video")) = []
  /\ _clean_title no_alnum (_clean_title no_alnum (lit "lyric mv video"))
     <> _clean_title no_alnum (lit "lyric mv video").
Proof. by vm_compute. Qed.

(** ** IEEE 754 facts *)

Section Floats.

Implicit Types (x y z : spec_float) (a b c : float).

(** The sign of a number; [None] for NaN. *)
Definition sf_sign x : option bool :=
  match x with
  | S754_zero s | S754_infinity s | S754_finite s _ _ => Some s
  | S754_nan => None
  end.

Definition sf_finite x : bool :=
  match x with
  | S754_zero _ | S754_finite _ _ _ => true
  | _ => false
  end.

Lemma iter_pos_inv {A} (P : A -> Prop) (f : A -> A) :
  (forall v, P v -> P (f v)) -> forall n v, P v -> P (SpecFloat.iter_pos f n v).
Proof. intros Hf. induction n; intros v Hv; simpl; auto. Qed.

Lemma shr_1_nonneg mrs : (0 <= shr_m mrs)%Z -> (0 <= shr_m (shr_1 mrs))%Z.
Proof. destruct mrs as [[|[q|q|]|q] r s]; simpl; lia. Qed.

Lemma shr_fexp_nonneg m e l :
  (0 <= m)%Z -> (0 <= shr_m (shr_fexp prec emax m e l).1)%Z.
Proof.
  intros Hm. unfold shr_fexp, shr.
  assert (0 <= shr_m (shr_record_of_loc m l))%Z as H0
    by (by destruct l as [|[]]).
  destruct (fexp prec emax (Zdigits2 m + e) - e)%Z; simpl; try done.
  by apply iter_pos_inv; [apply shr_1_nonneg|].
Qed.

Lemma round_nearest_even_nonneg m l :
  (0 <= m)%Z -> (0 <= round_nearest_even m l)%Z.
Proof. destruct l as [|[]]; simpl; try destruct (Z.even m); lia. Qed.

(** Rounding a non-negative mantissa gives a number of the requested sign. *)
Lemma binary_round_aux_sign s m e l :
  (0 <= m)%Z -> sf_sign (binary_round_aux prec emax s m e l) = Some s.
Proof.
  intros Hm. unfold binary_round_aux.
  pose proof (shr_fexp_nonneg m e l Hm) as H1.
  destruct (shr_fexp prec emax m e l) as [mrs' e'] eqn:E1. simpl in H1.
  pose proof (shr_fexp_nonneg _ e' loc_Exact
                (round_nearest_even_nonneg _ (loc_of_shr_record mrs') H1)) as H2.
  destruct (shr_fexp prec emax _ e' loc_Exact) as [mrs'' e''] eqn:E2.
  simpl in H2. destruct (shr_m mrs''); [done| |lia].
  by destruct (_ <=? _)%Z.
Qed.

Lemma binary_round_sign s m e :
  sf_sign (binary_round prec emax s m e) = Some s.
Proof.
  unfold binary_round. destruct (shl_align _ _ _) as [mz ez].
  by apply binary_round_aux_sign.
Qed.

Lemma binary_normalize_number m e : 
  sf_sign (binary_normalize prec emax m e false) <> None.
Proof.
  destruct m; simpl; [done| |]; by rewrite binary_round_sign.
Qed.

Lemma SFadd_nonneg x y :
  sf_sign x = Some false -> sf_sign y = Some false ->
  sf_sign (SF64add x y) = Some false.
Proof.
  destruct x as [sx|sx| |sx mx ex], y as [sy|sy| |sy my ey];
    simpl; intros [= ->] [= ->]; try done.
  apply binary_round_sign.
Qed.

Lemma SFmul_nonneg x y :
  sf_sign x = Some false -> sf_sign y = Some false -> sf_finite y = true ->
  y <> S754_zero false ->
  sf_sign (SF64mul x y) = Some false.
Proof.
  destruct x as [sx|sx| |sx mx ex], y as [sy|sy| |sy my ey];
    simpl; intros [= ->] [= ->] Hf Hz; try done.
  by apply binary_round_aux_sign.
Qed.

Lemma SFsub_number x y :
  sf_sign x <> None -> sf_sign y <> None -> sf_finite y = true ->
  sf_sign (SF64sub x y) <> None.
Proof.
  destruct x as [sx|sx| |sx mx ex], y as [sy|sy| |sy my ey];
    simpl; intros Hx Hy Hf; try done.
  - by destruct sx, sy.
  - apply binary_normalize_number.
Qed.

Lemma SFadd_zero_r x :
  sf_sign x = Some false -> SF64add x (S754_zero false) = x.
Proof. destruct x as [sx|sx| |sx mx ex]; simpl; by intros [= ->]. Qed.

(** *** The order *)

Lemma SFcompare_antisym x y :
  SFcompare y x = CompOpp <$> SFcompare x y.
Proof.
  destruct x as [sx|sx| |sx mx ex], y as [sy|sy| |sy my ey]; simpl;
    try done; try (by destruct sx); try (by destruct sy);
    try (by destruct sx, sy).
  rewrite !Pos.compare_cont_spec. simpl.
  rewrite (Z.compare_antisym ex ey), (Pos.compare_antisym mx my).
  destruct sx, sy; simpl; try done;
    destruct (ex ?= ey)%Z; simpl; try done;
    by destruct (mx ?= my)%positive.
Qed.

Definition sf_le x y : Prop :=
  SFcompare x y = Some Lt \/ SFcompare x y = Some Eq.

Lemma sf_le_trans x y z : sf_le x y -> sf_le y z -> sf_le x z.
Proof.
  unfold sf_le.
  destruct x as [sx|sx| |sx mx ex], y as [sy|sy| |sy my ey],
           z as [sz|sz| |sz mz ez]; simpl;
    try (by intros [?|?] [?|?]);
    try (destruct sx; simpl; by eauto);
    try (destruct sz; simpl; by eauto);
    try (destruct sx, sy; simpl; by intros [?|?] [?|?]; eauto);
    try (destruct sy, sz; simpl; by intros [?|?] [?|?]; eauto);
    try (destruct sx, sz; simpl; by intros [?|?] [?|?]; eauto).
  all: try (destruct sx, sy, sz; simpl; try (by intros [?|?] [?|?]; eauto)).
  all: rewrite ?Pos.compare_cont_spec; simpl.
  all: destruct (Z.compare_spec ex ey), (Z.compare_spec ey ez),
         (Z.compare_spec ex ez); try lia; simpl;
       try (by intros [?|?] [?|?]; eauto).
  all: destruct (Pos.compare_spec mx my), (Pos.compare_spec my mz),
         (Pos.compare_spec mx mz); try lia; simpl;
       try (by intros [?|?] [?|?]; eauto).
Qed.

Lemma SFcompare_refl x : sf_sign x <> None -> SFcompare x x = Some Eq.
Proof.
  destruct x as [sx|sx| |sx mx ex]; simpl; try done; try (by destruct sx).
  intros _. rewrite Z.compare_refl, Pos.compare_cont_spec, Pos.compare_refl.
  by destruct sx.
Qed.

Lemma SFcompare_total x y :
  sf_sign x <> None -> sf_sign y <> None ->
  exists o : comparison, SFcompare x y = Some o.
Proof.
  destruct x as [sx|sx| |sx mx ex], y as [sy|sy| |sy my ey]; simpl;
    try done; eauto.
Qed.

(** *** Binary64 values *)

Lemma is_nan_sign a : is_nan a = false <-> sf_sign (Prim2SF a) <> None.
Proof.
  unfold is_nan. rewrite FloatAxioms.eqb_spec. unfold SFeqb. split.
  - intros H E. destruct (Prim2SF a); done.
  - intros H. by rewrite SFcompare_refl.
Qed.

(** A number that is not negative: its sign bit is clear. *)
Definition nonneg a : Prop := sf_sign (Prim2SF a) = Some false.

(** A finite number greater than zero. *)
Definition positive_finite a : Prop :=
  exists m e, Prim2SF a = S754_finite false m e.

Lemma nonneg_number a : nonneg a -> is_nan a = false.
Proof. intros H. apply is_nan_sign. unfold nonneg in H. by rewrite H. Qed.

Lemma nonneg_add a b : nonneg a -> nonneg b -> nonneg (a + b).
Proof. unfold nonneg. rewrite FloatAxioms.add_spec. apply SFadd_nonneg. Qed.

Lemma positive_finite_nonneg a : positive_finite a -> nonneg a.
Proof. intros (m & e & H). unfold nonneg. by rewrite H. Qed.

Lemma nonneg_mul a b : nonneg a -> positive_finite b -> nonneg (a * b).
Proof.
  unfold nonneg. intros Ha (m & e & Hb). rewrite FloatAxioms.mul_spec, Hb.
  by apply SFmul_nonneg.
Qed.

Lemma add_zero_r a : nonneg a -> (a + 0x0p+0)%float = a.
Proof.
  intros Ha. apply Prim2SF_inj. rewrite FloatAxioms.add_spec.
  change (Prim2SF 0x0p+0) with (S754_zero false). by apply SFadd_zero_r.
Qed.

(** Zero, negative zero, a positive number or plus infinity. *)
Definition sf_ge0 x : Prop :=
  match x with
  | S754_zero _ => True
  | S754_infinity s | S754_finite s _ _ => s = false
  | S754_nan => False
  end.

Lemma leb_zero_ge0 a : (0x0p+0 <=? a)%float = true -> sf_ge0 (Prim2SF a).
Proof.
  rewrite FloatAxioms.leb_spec. change (Prim2SF 0x0p+0) with (S754_zero false).
  unfold SFleb. destruct (Prim2SF a) as [s|s| |s m e]; simpl; try done;
    by destruct s.
Qed.

Lemma SFmul_ge0 x m e :
  sf_ge0 x -> sf_ge0 (SF64mul x (S754_finite false m e)).
Proof.
  destruct x as [sx|sx| |sx mx ex]; simpl; try done; intros ->; [done|].
  pose proof (binary_round_aux_sign false (Z.pos (mx * m)) (ex + e) loc_Exact
                ltac:(lia)) as H.
  simpl. by destruct (binary_round_aux _ _ _ _ _ _); simplify_eq/=.
Qed.

Lemma SFadd_nonneg_ge0 x y :
  sf_sign x = Some false -> sf_ge0 y -> sf_sign (SF64add x y) = Some false.
Proof.
  destruct x as [sx|sx| |sx mx ex], y as [sy|sy| |sy my ey];
    simpl; intros [= ->]; try done; try (by intros ->).
  - by destruct sy.
  - intros ->. apply binary_round_sign.
Qed.

(** The order on numbers. *)
Lemma ltb_false_leb a b :
  is_nan a = false -> is_nan b = false ->
  (a <? b)%float = false -> (b <=? a)%float = true.
Proof.
  rewrite !is_nan_sign, FloatAxioms.ltb_spec, FloatAxioms.leb_spec. unfold SFltb, SFleb.
  intros Ha Hb. destruct (SFcompare_total _ _ Ha Hb) as [o Ho].
  rewrite (SFcompare_antisym (Prim2SF a) (Prim2SF b)), Ho. by destruct o.
Qed.

Lemma ltb_true_leb a b : (a <? b)%float = true -> (a <=? b)%float = true.
Proof.
  rewrite FloatAxioms.ltb_spec, FloatAxioms.leb_spec. unfold SFltb, SFleb.
  by destruct (SFcompare _ _) as [[]|].
Qed.

Lemma ltb_true_neq a b : (a <? b)%float = true -> (b =? a)%float = false.
Proof.
  rewrite FloatAxioms.ltb_spec, FloatAxioms.eqb_spec. unfold SFltb, SFeqb.
  rewrite (SFcompare_antisym (Prim2SF a) (Prim2SF b)).
  by destruct (SFcompare _ _) as [[]|].
Qed.

Lemma leb_trans a b c :
  (a <=? b)%float = true -> (b <=? c)%float = true -> (a <=? c)%float = true.
Proof.
  rewrite !FloatAxioms.leb_spec. unfold SFleb.
  intros Hab Hbc.
  destruct (sf_le_trans (Prim2SF a) (Prim2SF b) (Prim2SF c)) as [-> | ->];
    try done; unfold sf_le.
  - destruct (SFcompare (Prim2SF a) (Prim2SF b)) as [[]|]; auto; done.
  - destruct (SFcompare (Prim2SF b) (Prim2SF c)) as [[]|]; auto; done.
Qed.

End Floats.

(** ** Whole-word search *)

(** The specification's "matched as a whole word": [t] stands in [text]
    with a word boundary in front of it and one behind it. *)
Definition occurs_as_word (w : char -> bool) (t text : str) : Prop :=
  exists pre post,
    text = pre ++ t ++ post
    /\ xorb (opt_word w (last pre)) (opt_word w (head (t ++ post))) = true
    /\ xorb (opt_word w (last (pre ++ t))) (opt_word w (head post)) = true.

(** The specification's count of matched terms: [n] of the terms [ts], taken
    with their multiplicity, occur in [text] as a whole word. *)
Inductive whole_word_count (w : char -> bool) (text : str)
  : list str -> nat -> Prop :=
  | wwc_nil : whole_word_count w text [] 0
  | wwc_hit t ts n :
      occurs_as_word w t text ->
      whole_word_count w text ts n ->
      whole_word_count w text (t :: ts) (S n)
  | wwc_miss t ts n :
      ~ occurs_as_word w t text ->
      whole_word_count w text ts n ->
      whole_word_count w text (t :: ts) n.

Section WholeWord.

Implicit Types (r : regex) (s t pre post : str) (prev : option char).

Lemma is_prefix_spec t s : is_prefix t s = true <-> exists post, s = t ++ post.
Proof.
  revert s. induction t as [|a t IH]; intros s; simpl.
  - split; [by exists s|done].
  - destruct s as [|b s]; [by split; [|intros [? ?]]|].
    rewrite andb_true_iff, IH, N.eqb_eq. split.
    + intros [-> [post ->]]. by exists post.
    + intros [post [= -> ->]]. split; [done|by exists post].
Qed.

Lemma lit_re_match t : forall st,
  rmatch (lit_re chr_is t) st
  = if is_prefix t (m_rest st)
    then [MState (last_or (m_prev st) t) (drop (length t) (m_rest st)) (m_caps st)]
    else [].
Proof.
  induction t as [|a t IH]; intros [pv s cs]; [done|].
  assert (rmatch (Cls (chr_is a)) (MState pv s cs)
          = match s with
            | b :: s' => if a =? b then [MState (Some b) s' cs] else []
            | [] => []
            end) as Hcls.
  { simpl. destruct s as [|b s']; [done|]. unfold chr_is.
    by rewrite (N.eqb_sym b a). }
  destruct t as [|a' t].
  - cbn [lit_re]. rewrite Hcls. cbn [m_rest m_prev m_caps is_prefix].
    destruct s as [|b s']; [done|]. rewrite andb_true_r.
    by destruct (N.eqb_spec a b) as [->|].
  - change (lit_re chr_is (a :: a' :: t))
      with (Seq (Cls (chr_is a)) (lit_re chr_is (a' :: t))).
    change (rmatch (Seq ?r1 ?r2) ?st) with (flat_map (rmatch r2) (rmatch r1 st)).
    rewrite Hcls. cbn [m_rest m_prev m_caps].
    change (is_prefix (a :: a' :: t) s)
      with (match s with
            | b :: s' => (a =? b) && is_prefix (a' :: t) s'
            | [] => false
            end).
    destruct s as [|b s']; [done|].
    destruct (N.eqb_spec a b) as [->|]; [|done].
    cbn [flat_map]. rewrite IH, app_nil_r. cbn [m_rest m_prev m_caps andb].
    destruct (is_prefix (a' :: t) s'); [|done].
    by rewrite (last_or_cons pv b).
Qed.

Lemma search_from_spec r : forall s prev,
  search_from r prev s = true
  <-> exists pre post,
        s = pre ++ post /\ rmatch r (MState (last_or prev pre) post []) <> [].
Proof.
  induction s as [|c s IH]; intros prev; simpl.
  - split.
    + destruct (rmatch r (MState prev [] [])) eqn:E; [done|]. intros _.
      exists [], []. split; [done|].
      change (last_or prev []) with prev. by rewrite E.
    + intros (pre & post & Hs & Hm).
      symmetry in Hs. apply app_eq_nil in Hs as [-> ->].
      by destruct (rmatch r _).
  - destruct (rmatch r (MState prev (c :: s) [])) eqn:E.
    + rewrite IH. split.
      * intros (pre & post & -> & Hm). exists (c :: pre), post.
        by rewrite last_or_cons.
      * intros ([|c' pre] & post & Hs & Hm).
        -- simpl in Hs. subst post. by destruct Hm.
        -- injection Hs as <- ->. exists pre, post.
           by rewrite last_or_cons in Hm.
    + split; [|done]. intros _. exists [], (c :: s). split; [done|].
      change (last_or prev []) with prev. by rewrite E.
Qed.

Lemma whole_word_match (w : char -> bool) t prev s :
  rmatch (cat [WordB w; lit_re chr_is t; WordB w]) (MState prev s []) <> []
  <-> xorb (opt_word w prev) (opt_word w (head s)) = true
      /\ exists post,
           s = t ++ post
           /\ xorb (opt_word w (last_or prev t)) (opt_word w (head post)) = true.
Proof.
  cbn [cat rmatch m_prev m_rest m_caps].
  destruct (xorb (opt_word w prev) (opt_word w (head s))); cbn [flat_map];
    [|by split; [|intros [? _]]].
  rewrite app_nil_r, lit_re_match. cbn [m_prev m_rest m_caps].
  destruct (is_prefix t s) eqn:Ep.
  - apply is_prefix_spec in Ep as [post ->].
    rewrite drop_app_length. cbn [flat_map rmatch m_prev m_rest m_caps].
    rewrite app_nil_r. split.
    + intros H. split; [done|]. exists post. split; [done|].
      by destruct (xorb _ _).
    + intros [_ (post' & E & H)]. apply app_inv_head in E as <-.
      by rewrite H.
  - split; [done|]. intros [_ (post & -> & _)].
    assert (is_prefix t (t ++ post) = true) as H
      by (apply is_prefix_spec; by exists post).
    congruence.
Qed.

(** The search of the source finds exactly the whole-word occurrences. *)
Lemma re_search_whole_word uni_alnum t text :
  re_search (whole_word uni_alnum t) text = true
  <-> occurs_as_word (is_word uni_alnum) t text.
Proof.
  unfold re_search, whole_word, occurs_as_word. rewrite search_from_spec.
  split.
  - intros (pre & s & -> & Hm). apply whole_word_match in Hm as [H1 (post & -> & H2)].
    exists pre, post. split; [done|].
    unfold last_or in H1, H2. rewrite last_app.
    destruct (last pre), (last t); done.
  - intros (pre & post & -> & H1 & H2). exists pre, (t ++ post).
    split; [done|]. apply whole_word_match.
    unfold last_or. rewrite last_app in H2.
    split; [by destruct (last pre)|]. exists post. split; [done|].
    by destruct (last pre), (last t).
Qed.

End WholeWord.

(** ** Scoring and ranking *)

Section RankingProperties.

Variable uni_alnum : char -> bool.
Variable uni_lower : str -> str.
Variable log10_int : Z -> float.
Variable log10_float : float -> float.
Variable round3 : float -> float.

Abbreviation score_item' :=
  (score_item uni_alnum uni_lower log10_int log10_float).
Abbreviation rank_loop' :=
  (rank_loop uni_alnum uni_lower log10_int log10_float round3).
Abbreviation rank' :=
  (rank_recommendations uni_alnum uni_lower log10_int log10_float round3).

Implicit Types (h : store) (d : dict) (p : prefs) (items ranked : list loc).

(** *** The store *)

(** The copy made for one item: a fresh reference to a dict that holds the
    entries of [d] and the score. *)
Lemma alloc_setitem h d k v :
  let l := fresh (dom h) in
  h !! l = None /\ setitem (alloc h d).2 l k v = <[l := <[k := v]> d]> h.
Proof.
  intros l. split.
  - apply not_elem_of_dom, is_fresh.
  - unfold setitem, alloc. simpl. by rewrite alter_insert_eq.
Qed.

Lemma rank_loop_frame p : forall items ranked h,
  h ⊆ (rank_loop' items p ranked h).2.
Proof.
  induction items as [|it items IH]; intros ranked h; simpl; [done|].
  destruct (score_item' h it p) as [s|e]; [|done].
  destruct (h !! it) as [d|] eqn:Ed; [|done].
  destruct (alloc_setitem h d "score" (VFloat (round3 s))) as [Hfresh E].
  cbn zeta in E. unfold alloc in *. simpl in E. rewrite E.
  etrans; [|apply IH]. by apply insert_subseteq.
Qed.

Lemma rank_frame h items p : h ⊆ (rank' h items p).2.
Proof.
  unfold rank_recommendations.
  pose proof (rank_loop_frame p items [] h) as H.
  destruct (rank_loop' items p [] h) as [[ranked|e] h']; [|done].
  by destruct (decorate h' ranked).
Qed.

(** C10: every dict of the store before the call, the input records among
    them, is the same dict after it; the scores go to fresh copies. *)
Theorem rank_recommendations_keeps_inputs h items p (l : loc) d :
  h !! l = Some d ->
  (rank_recommendations uni_alnum uni_lower log10_int log10_float round3
     h items p).2 !! l = Some d.
Proof. intros H. eapply lookup_weaken; [exact H|apply rank_frame]. Qed.

(** *** The penalty *)

Definition fixed_terms : list str := [lit "live"; lit "cover"; lit "remix"].

(** The float reached from 0.0 by [n] additions of 1.0. *)
Definition count_float (n : nat) : float :=
  Nat.iter n (fun x => (x + f1)%float) f0.

(** The number of terms of [ts] for which the search of the source
    succeeds on [text]. *)
Definition matched_terms (text : str) (ts : list str) : nat :=
  length (List.filter (fun t => re_search (whole_word uni_alnum t) text) ts).

(** The searches of the source count exactly the whole-word occurrences. *)
Lemma matched_terms_count text : forall ts,
  whole_word_count (is_word uni_alnum) text ts (matched_terms text ts).
Proof.
  induction ts as [|t ts IH]; [constructor|].
  unfold matched_terms. cbn [List.filter].
  destruct (re_search (whole_word uni_alnum t) text) eqn:E.
  - cbn [length]. apply wwc_hit; [|exact IH]. by apply re_search_whole_word.
  - apply wwc_miss; [|exact IH]. rewrite <- re_search_whole_word. congruence.
Qed.

(** The count is a function of the text and the terms. *)
Lemma whole_word_count_unique w text : forall ts n m,
  whole_word_count w text ts n -> whole_word_count w text ts m -> n = m.
Proof.
  induction ts as [|t ts IH]; intros n m Hn Hm;
    inversion Hn; inversion Hm; subst; try done; eauto.
Qed.

Lemma penalty_fold text : forall ts acc,
  fold_left (penalty_step uni_alnum text) ts acc
  = Nat.iter (matched_terms text ts) (fun x => (x + f1)%float) acc.
Proof.
  induction ts as [|t ts IH]; intros acc; [done|].
  cbn [fold_left]. rewrite IH. unfold matched_terms, penalty_step.
  cbn [List.filter]. destruct (re_search _ text); [|done].
  cbn [length]. by rewrite Nat.iter_succ_r.
Qed.

Lemma kw_has_penalty_terms_spec p :
  kw_has_penalty_terms p = true
  <-> exists t, In t (penalty_terms p) /\ In t (keywords_lower p).
Proof.
  unfold kw_has_penalty_terms. rewrite existsb_exists. split.
  - intros (t & Ht & Hk). apply existsb_exists in Hk as (k & Hk & E).
    apply bool_decide_eq_true in E as ->. eauto.
  - intros (t & Ht & Hk). exists t. split; [done|].
    apply existsb_exists. exists t. split; [done|].
    by apply bool_decide_eq_true.
Qed.

(** C6: with the fixed penalty terms, the penalty is 0.0 when one of them is
    among the lowercased keywords; otherwise it is 1.0 for each term that
    occurs in the text as a whole word, and for no other term.  So a text with
    the whole word "live" gets no penalty when "live" is a keyword and a
    penalty of at least 1.0 when no penalty term is a keyword. *)
Theorem penalty_gating (text : str) p :
  penalty_terms p = fixed_terms ->
  ((exists t, In t fixed_terms /\ In t (keywords_lower p)) ->
   penalty_of uni_alnum text p = f0)
  /\ ((forall t, In t fixed_terms -> ~ In t (keywords_lower p)) ->
      exists n, whole_word_count (is_word uni_alnum) text fixed_terms n
                /\ penalty_of uni_alnum text p = count_float n)
  /\ (In (lit "live") (keywords_lower p) -> penalty_of uni_alnum text p = f0)
  /\ ((forall t, In t fixed_terms -> ~ In t (keywords_lower p)) ->
      occurs_as_word (is_word uni_alnum) (lit "live") text ->
      (f1 <=? penalty_of uni_alnum text p)%float = true).
Proof.
  intros Hterms.
  assert ((exists t, In t fixed_terms /\ In t (keywords_lower p)) ->
          penalty_of uni_alnum text p = f0) as Hgate.
  { intros Hex. unfold penalty_of.
    rewrite (proj2 (kw_has_penalty_terms_spec p)); [done|]. by rewrite Hterms. }
  assert ((forall t, In t fixed_terms -> ~ In t (keywords_lower p)) ->
          penalty_of uni_alnum text p
          = count_float (matched_terms text fixed_terms)) as Hcount.
  { intros Hnone. unfold penalty_of.
    destruct (kw_has_penalty_terms p) eqn:E.
    - apply kw_has_penalty_terms_spec in E as (t & Ht & Hk).
      rewrite Hterms in Ht. by destruct (Hnone t Ht).
    - simpl. rewrite Hterms. apply penalty_fold. }
  split; [done|]. split; [|split].
  - intros Hnone. exists (matched_terms text fixed_terms).
    split; [apply matched_terms_count|by apply Hcount].
  - intros Hlive. apply Hgate. exists (lit "live"). split; [by left|done].
  - intros Hnone Hlive. apply re_search_whole_word in Hlive.
    rewrite (Hcount Hnone).
    unfold matched_terms, fixed_terms. cbn [List.filter]. rewrite Hlive.
    destruct (re_search (whole_word uni_alnum (lit "cover")) text),
             (re_search (whole_word uni_alnum (lit "remix")) text);
      by vm_compute.
Qed.

End RankingProperties.

(** ** The score of a record without views *)

Section ZeroViews.

Variable uni_alnum : char -> bool.
Variable uni_lower : str -> str.
Variable log10_int : Z -> float.
Variable log10_float : float -> float.

Lemma nonneg_f0 : nonneg f0.
Proof. by vm_compute. Qed.

Lemma positive_finite_f1 : positive_finite f1.
Proof. eexists _, _. by vm_compute. Qed.

Lemma positive_finite_f2 : positive_finite f2.
Proof. eexists _, _. by vm_compute. Qed.

Lemma positive_finite_w_kw : positive_finite w_kw.
Proof. eexists _, _. by vm_compute. Qed.

Lemma kw_step_nonneg title artist text acc kw :
  nonneg acc -> nonneg (kw_step title artist text acc kw).
Proof.
  intros H. unfold kw_step. destruct (negb (nonempty kw)); [done|].
  pose proof (positive_finite_nonneg _ positive_finite_f1).
  pose proof (positive_finite_nonneg _ positive_finite_f2).
  destruct (contains text kw), (contains title kw), (contains artist kw);
    repeat apply nonneg_add; done.
Qed.

Lemma kw_score_nonneg title artist text p :
  nonneg (kw_score_of title artist text p).
Proof.
  unfold kw_score_of. generalize nonneg_f0. generalize f0.
  induction (keywords_lower p) as [|kw kws IH]; intros acc Hacc; [done|].
  simpl. by apply IH, kw_step_nonneg.
Qed.

(** C9: when the views of a record are 0 (and the C library's log10 of 1 is
    0), the popularity component is exactly 0.0 and the score is
    [kw_score * 1.5 - penalty * 0.8]. *)
Theorem zero_views_score (h : store) (it : loc) (d : dict) (p : prefs)
  (title artist : str) :
  log10_int 1 = f0 ->
  h !! it = Some d ->
  views_of d = VInt 0 ->
  title_of uni_lower d = Ok title ->
  artist_of uni_lower d = Ok artist ->
  pop_score_of log10_int log10_float d = Ok f0
  /\ score_item uni_alnum uni_lower log10_int log10_float h it p
     = Ok (kw_score_of title artist (title ++ lit " " ++ artist) p * w_kw
           - penalty_of uni_alnum (title ++ lit " " ++ artist) p * w_pen)%float.
Proof.
  intros Hlog Hit Hviews Htitle Hartist.
  assert (pop_score_of log10_int log10_float d = Ok f0) as Hpop.
  { unfold pop_score_of. rewrite Hviews. simpl. by rewrite Z.add_0_l, Hlog. }
  split; [done|].
  unfold score_item, score_dict. rewrite Hit, Htitle, Hartist. simpl.
  rewrite Hpop. simpl. do 2 f_equal.
  change (f0 * w_pop)%float with 0x0p+0%float.
  apply add_zero_r, nonneg_mul; [apply kw_score_nonneg|apply positive_finite_w_kw].
Qed.

End ZeroViews.

(** ** The stable descending sort *)

Section Sort.

Context {A : Type}.
Implicit Types (x y : float * A) (l : list (float * A)).

Lemma insert_desc_perm x l : insert_desc x l ≡ₚ x :: l.
Proof.
  induction l as [|y l IH]; simpl; [done|].
  destruct (x.1 <? y.1)%float; [|done].
  rewrite IH. apply Permutation_swap.
Qed.

Lemma sort_desc_perm l : sort_desc l ≡ₚ l.
Proof.
  induction l as [|x l IH]; simpl; [done|].
  rewrite insert_desc_perm. by rewrite IH.
Qed.

(** [before] is the order of the elements before the sort. *)
Variable before : A -> A -> Prop.

(** [x] may stand in front of [y]: its key is not smaller, and on equal keys
    it came first. *)
Definition ranked_before x y : Prop :=
  (y.1 <=? x.1)%float = true /\ ((x.1 =? y.1)%float = true -> before x.2 y.2).

Definition key_number x : Prop := is_nan x.1 = false.

Lemma insert_desc_sorted x l :
  key_number x -> Forall key_number l ->
  Forall (fun y => before x.2 y.2) l ->
  StronglySorted ranked_before l ->
  StronglySorted ranked_before (insert_desc x l).
Proof.
  intros Hx. induction l as [|y l IH]; intros Hl Hb Hs; simpl.
  - by repeat constructor.
  - apply Forall_cons in Hl as [Hy Hl]. apply Forall_cons in Hb as [Hby Hb].
    apply StronglySorted_inv in Hs as [Hs Hyl].
    destruct (x.1 <? y.1)%float eqn:E.
    + constructor; [by apply IH|].
      rewrite insert_desc_perm. constructor; [|done]. split.
      * by apply ltb_true_leb.
      * intros Heq. by rewrite (ltb_true_neq _ _ E) in Heq.
    + assert ((y.1 <=? x.1)%float = true) as Hyx by (by apply ltb_false_leb).
      constructor; [by constructor|]. constructor; [by split; auto|].
      rewrite Forall_forall in Hyl, Hb |- *. intros z Hz. split.
      * destruct (Hyl z Hz) as [Hzy _]. by eapply leb_trans.
      * intros _. by apply Hb.
Qed.

Lemma sort_desc_sorted l :
  Forall key_number l ->
  StronglySorted (fun x y => before x.2 y.2) l ->
  StronglySorted ranked_before (sort_desc l).
Proof.
  induction l as [|x l IH]; intros Hl Hs; simpl; [constructor|].
  apply Forall_cons in Hl as [Hx Hl].
  apply StronglySorted_inv in Hs as [Hs Hxl].
  apply insert_desc_sorted; [done| | |by apply IH].
  - by rewrite sort_desc_perm.
  - by rewrite sort_desc_perm.
Qed.

Lemma StronglySorted_lookup (R : float * A -> float * A -> Prop) l i j x y :
  StronglySorted R l -> (i < j)%nat ->
  l !! i = Some x -> l !! j = Some y -> R x y.
Proof.
  intros Hs. revert i j. induction Hs as [|z l Hs IH Hz]; intros i j Hij Hi Hj.
  - done.
  - destruct i as [|i], j as [|j]; try lia; simpl in *.
    + injection Hi as ->. rewrite Forall_forall in Hz. apply Hz.
      by eapply list_elem_of_lookup_2.
    + apply (IH i j); [lia|done|done].
Qed.

End Sort.

Lemma insert_desc_map {A B} (f : A -> B) (x : float * A) l :
  insert_desc (prod_map id f x) (map (prod_map id f) l)
  = map (prod_map id f) (insert_desc x l).
Proof.
  induction l as [|y l IH]; simpl; [done|].
  destruct (x.1 <? y.1)%float; simpl; [by rewrite IH|done].
Qed.

Lemma sort_desc_map {A B} (f : A -> B) (l : list (float * A)) :
  sort_desc (map (prod_map id f) l) = map (prod_map id f) (sort_desc l).
Proof.
  induction l as [|x l IH]; simpl; [done|].
  by rewrite IH, insert_desc_map.
Qed.

(** ** Ranking returns every record once, sorted *)

(** A field that holds a string, [None], or is absent. *)
Definition str_or_none (o : option value) : Prop :=
  match o with
  | None | Some VNone | Some (VStr _) => True
  | Some _ => False
  end.

(** A view count: a non-negative integer, [None], or absent. *)
Definition views_ok (o : option value) : Prop :=
  match o with
  | None | Some VNone => True
  | Some (VInt n) => (0 <= n)%Z
  | Some _ => False
  end.

(** A record as the search step builds it. *)
Definition wf_record (d : dict) : Prop :=
  str_or_none (d !! "song_title") /\ str_or_none (d !! "title")
  /\ str_or_none (d !! "artist") /\ str_or_none (d !! "channel")
  /\ views_ok (d !! "views").

Section RankSorted.

Variable uni_alnum : char -> bool.
Variable uni_lower : str -> str.
Variable log10_int : Z -> float.
Variable log10_float : float -> float.
Variable round3 : float -> float.

(** What the development needs of the library functions: the logarithm of a
    positive integer is not below zero, and rounding a number gives a
    number. *)
Hypothesis log10_int_ge0 :
  forall n, (0 < n)%Z -> (f0 <=? log10_int n)%float = true.
Hypothesis round3_number :
  forall x, is_nan x = false -> is_nan (round3 x) = false.

Abbreviation score_dict' :=
  (score_dict uni_alnum uni_lower log10_int log10_float).
Abbreviation score_item' :=
  (score_item uni_alnum uni_lower log10_int log10_float).
Abbreviation rank_loop' :=
  (rank_loop uni_alnum uni_lower log10_int log10_float round3).
Abbreviation rank' :=
  (rank_recommendations uni_alnum uni_lower log10_int log10_float round3).

Implicit Types (h : store) (d : dict) (p : prefs) (items ranked : list loc).

(** *** Scoring a well-formed record *)

Lemma name_ok d k1 k2 :
  str_or_none (d !! k1) -> str_or_none (d !! k2) ->
  exists t, value_lower (lower uni_lower)
              (py_or (dict_get d k1) (py_or (dict_get d k2) (VStr []))) = Ok t.
Proof.
  unfold dict_get, py_or.
  destruct (d !! k1) as [[|s1| |]|], (d !! k2) as [[|s2| |]|]; simpl;
    try done; intros _ _;
    try destruct (nonempty s1); try destruct (nonempty s2); simpl; eauto.
Qed.

Lemma pop_score_ok d :
  views_ok (d !! "views") ->
  exists v, pop_score_of log10_int log10_float d = Ok v /\ sf_ge0 (Prim2SF v).
Proof.
  intros Hv.
  assert (exists n, views_of d = VInt n /\ (0 <= n)%Z) as (n & Hn & Hpos).
  { unfold views_of, dict_get_or, py_or.
    destruct (d !! "views") as [[| |n|]|]; simpl in *; try done;
      try (by exists 0%Z).
    destruct (n =? 0)%Z; simpl; [by exists 0%Z|by exists n]. }
  unfold pop_score_of. rewrite Hn. simpl.
  destruct (Z.ltb_spec 0 (n + 1)) as [Hlt|]; [|lia].
  eexists. split; [done|]. by apply leb_zero_ge0, log10_int_ge0.
Qed.

Lemma penalty_values text p :
  penalty_terms p = fixed_terms ->
  In (penalty_of uni_alnum text p) [f0; f1; f2; 0x1.8p+1%float].
Proof.
  intros Hp. unfold penalty_of. destruct (kw_has_penalty_terms p); simpl.
  - by left.
  - rewrite Hp. unfold fixed_terms, penalty_step. cbn [fold_left].
    destruct (re_search (whole_word uni_alnum (lit "live")) text),
             (re_search (whole_word uni_alnum (lit "cover")) text),
             (re_search (whole_word uni_alnum (lit "remix")) text);
      vm_compute; tauto.
Qed.

Lemma score_dict_number d p :
  wf_record d -> penalty_terms p = fixed_terms ->
  exists s, score_dict' d p = Ok s /\ is_nan s = false.
Proof.
  intros (H1 & H2 & H3 & H4 & H5) Hp. unfold score_dict.
  destruct (name_ok d "song_title" "title" H1 H2) as [title Ht].
  destruct (name_ok d "artist" "channel" H3 H4) as [artist Ha].
  destruct (pop_score_ok d H5) as (pop & Hpop & Hge).
  unfold title_of, artist_of. rewrite Ht, Ha.
  cbn [mbind res_mbind res_bind]. rewrite Hpop. cbn [mbind res_mbind res_bind].
  eexists. split; [done|].
  set (text := title ++ lit " " ++ artist).
  apply is_nan_sign. rewrite FloatAxioms.sub_spec.
  apply SFsub_number.
  - rewrite FloatAxioms.add_spec, SFadd_nonneg_ge0; [done| |].
    + apply nonneg_mul; [apply kw_score_nonneg|apply positive_finite_w_kw].
    + rewrite FloatAxioms.mul_spec. by apply SFmul_ge0.
  - destruct (penalty_values text p Hp) as [<-|[<-|[<-|[<-|[]]]]]; by vm_compute.
  - destruct (penalty_values text p Hp) as [<-|[<-|[<-|[<-|[]]]]]; by vm_compute.
Qed.

(** *** The loop *)

(** A row of the result: the rounded score, the reference of the copy, and
    the position of the input record it copies. *)
Definition row_ok h0 h' p (row : float * (loc * nat)) (it : loc) : Prop :=
  exists d s,
    h0 !! it = Some d /\ score_item' h0 it p = Ok s
    /\ row.1 = round3 s /\ is_nan row.1 = false
    /\ h' !! row.2.1 = Some (<["score" := VFloat row.1]> d).

Lemma row_ok_weaken h0 h' h'' p row it :
  h' ⊆ h'' -> row_ok h0 h' p row it -> row_ok h0 h'' p row it.
Proof.
  intros Hsub (d & s & ? & ? & ? & ? & Hl). exists d, s.
  repeat split; try done. by eapply lookup_weaken.
Qed.

Lemma rank_loop_spec h0 p :
  penalty_terms p = fixed_terms ->
  forall items ranked h base,
    h0 ⊆ h ->
    Forall (fun it => exists d, h0 !! it = Some d /\ wf_record d) items ->
    exists rows h',
      rank_loop' items p ranked h = (Ok (ranked ++ map (fun r => r.2.1) rows), h')
      /\ h ⊆ h'
      /\ map (fun r => r.2.2) rows = seq base (length items)
      /\ Forall2 (row_ok h0 h' p) rows items.
Proof.
  intros Hp. induction items as [|it items IH]; intros ranked h base Hsub Hwf.
  - exists [], h. simpl. by rewrite app_nil_r.
  - apply Forall_cons in Hwf as [(d & Hd & Hwfd) Hwf].
    destruct (score_dict_number d p Hwfd Hp) as (s & Hs & Hnum).
    pose proof (lookup_weaken _ _ _ _ Hd Hsub) as Hd'.
    destruct (alloc_setitem h d "score" (VFloat (round3 s))) as [Hfresh E].
    cbn zeta in E. set (l := fresh (dom h)) in *.
    set (h1 := <[l := <["score" := VFloat (round3 s)]> d]> h) in *.
    assert (h ⊆ h1) as Hsub1 by (by apply insert_subseteq).
    destruct (IH (ranked ++ [l]) h1 (S base)) as (rows & h' & Hloop & Hsub' & Hseq & Hrows);
      [by etrans|done|].
    exists ((round3 s, (l, base)) :: rows), h'. repeat split.
    + cbn [rank_loop]. unfold score_item. rewrite Hd', Hs.
      unfold alloc in *. cbn [snd] in E. fold l in E |- *. cbn [fst snd].
      rewrite E. fold h1. rewrite Hloop. cbn [map fst snd].
      by rewrite <- app_assoc.
    + by etrans.
    + simpl. by rewrite Hseq.
    + constructor; [|done]. exists d, s. unfold score_item. rewrite Hd.
      repeat split; try done; simpl; [by apply round3_number|].
      eapply lookup_weaken; [|exact Hsub']. apply lookup_insert_eq.
Qed.

Lemma decorate_rows h0 h' p rows items :
  Forall2 (row_ok h0 h' p) rows items ->
  decorate h' (map (fun r => r.2.1) rows) = Ok (map (prod_map id fst) rows).
Proof.
  induction 1 as [|[k [l i]] it rows items (d & s & _ & _ & _ & _ & Hl) _ IH];
    [done|].
  simpl in *. unfold score_key. rewrite Hl, lookup_insert_eq. simpl.
  by rewrite IH.
Qed.

Lemma seq_sorted {B} (f : B -> nat) : forall (l : list B) base n,
  map f l = seq base n ->
  StronglySorted (fun x y => (f x < f y)%nat) l.
Proof.
  induction l as [|x l IH]; intros base n Hl; [constructor|].
  destruct n as [|n]; [done|]. injection Hl as Hx Hl.
  constructor; [by eapply IH|].
  rewrite Forall_forall. intros y Hy.
  assert (f y ∈ seq (S base) n) as Hin
    by (rewrite <- Hl; by apply list_elem_of_fmap_2).
  apply elem_of_seq in Hin. lia.
Qed.

(** C7: for well-formed records and the fixed penalty terms the call returns
    one copy of every input record, each with its rounded score, in order of
    non-increasing score, records of equal score in their input order.  A
    row of [sorted] is the score, the returned reference, and the input
    position of the record it copies. *)
Theorem rank_recommendations_sorted_permutation h items p :
  penalty_terms p = fixed_terms ->
  Forall (fun it => exists d, h !! it = Some d /\ wf_record d) items ->
  exists sorted : list (float * (loc * nat)),
    (rank_recommendations uni_alnum uni_lower log10_int log10_float round3
       h items p).1 = Ok (map (fun r => r.2.1) sorted)
    /\ length sorted = length items
    /\ map (fun r => r.2.2) sorted ≡ₚ seq 0 (length items)
    /\ (forall r, r ∈ sorted ->
        exists it d s,
          items !! r.2.2 = Some it /\ h !! it = Some d
          /\ score_item uni_alnum uni_lower log10_int log10_float h it p = Ok s
          /\ r.1 = round3 s
          /\ (rank_recommendations uni_alnum uni_lower log10_int log10_float
                round3 h items p).2 !! r.2.1
             = Some (<["score" := VFloat r.1]> d))
    /\ (forall a b ra rb,
        (a < b)%nat -> sorted !! a = Some ra -> sorted !! b = Some rb ->
        (rb.1 <=? ra.1)%float = true
        /\ ((ra.1 =? rb.1)%float = true -> (ra.2.2 < rb.2.2)%nat)).
Proof.
  intros Hp Hwf.
  destruct (rank_loop_spec h p Hp items [] h 0%nat) as (rows & h' & Hloop & Hsub & Hseq & Hrows);
    [done|done|].
  unfold rank_recommendations. rewrite Hloop. cbn [app].
  rewrite (decorate_rows _ _ _ _ _ Hrows). cbn [fst snd].
  exists (sort_desc rows).
  assert (length rows = length items) as Hlen
    by (by apply Forall2_length in Hrows).
  split; [|split; [|split; [|split]]].
  - rewrite sort_desc_map, map_map. do 2 f_equal.
  - by rewrite sort_desc_perm.
  - by rewrite sort_desc_perm, Hseq.
  - intros r Hr. rewrite sort_desc_perm in Hr.
    apply list_elem_of_lookup in Hr as [j Hj].
    assert (r.2.2 = j) as Hidx.
    { assert (map (fun r => r.2.2) rows !! j = Some r.2.2) as Hm
        by (by rewrite list_lookup_fmap, Hj).
      rewrite Hseq in Hm. apply lookup_seq in Hm. lia. }
    destruct (Forall2_lookup_l _ _ _ _ _ Hrows Hj) as (it & Hit & d & s & Hd & Hs & Hk & _ & Hl).
    exists it, d, s. by rewrite Hidx.
  - intros a b ra rb Hab Ha Hb.
    apply (StronglySorted_lookup
             (ranked_before (fun x y : loc * nat => (x.2 < y.2)%nat))
             (sort_desc rows) a b); [|done..].
    apply sort_desc_sorted.
    + eapply Forall2_Forall_l; [exact Hrows|].
      apply Forall_true. by intros r it (d & s & _ & _ & _ & ? & _).
    + by apply (seq_sorted (fun r : float * (loc * nat) => r.2.2) rows 0%nat
                  (length items)).
Qed.

End RankSorted.

(** ** Examples

    Two records in a store, the preferences for the input "IU, dynamite",
    and the stand-ins for the library functions. *)

Definition record_a : dict :=
  {[ "song_title" := VStr (lit "Good Day Live");
     "artist" := VStr (lit "IU");
     "views" := VInt 99 ]}.

Definition record_b : dict :=
  {[ "song_title" := VStr (lit "Dynamite");
     "artist" := VStr (lit "BTS");
     "views" := VInt 0 ]}.

Definition store_ab : store := {[ 1%positive := record_a; 2%positive := record_b ]}.

Definition prefs_iu : prefs := build_user_prefs same_str (KStr (lit "IU, dynamite")).

Lemma log10_table_ge0 n : (0 < n)%Z -> (f0 <=? log10_table n)%float = true.
Proof.
  intros _. unfold log10_table.
  destruct (n =? 1)%Z, (n =? 10)%Z, (n =? 100)%Z; by vm_compute.
Qed.

Lemma round_id_number x : is_nan x = false -> is_nan (round_id x) = false.
Proof. done. Qed.

Lemma prefs_iu_no_penalty_keyword t :
  In t fixed_terms -> ~ In t (keywords_lower prefs_iu).
Proof.
  intros [<-|[<-|[<-|[]]]]; vm_compute; intros [H|[H|[]]]; discriminate H.
Qed.

Lemma live_in_good_day_live_iu :
  occurs_as_word (is_word no_alnum) (lit "live") (lit "good day live iu").
Proof. exists (lit "good day "), (lit " iu"). by vm_compute. Qed.

Lemma penalty_gating_witness :
  (f1 <=? penalty_of no_alnum (lit "good day live iu") prefs_iu)%float = true.
Proof.
  apply (penalty_gating no_alnum (lit "good day live iu") prefs_iu).
  - reflexivity.
  - apply prefs_iu_no_penalty_keyword.
  - apply live_in_good_day_live_iu.
Defined.

(** The preferences for the input "cover". *)
Definition prefs_cover : prefs := build_user_prefs same_str (KStr (lit "cover")).

(** The gate is one for all terms: with the keyword "cover", "live" is not a
    keyword and stands in the text of [record_a] as a whole word, and yet the
    penalty is 0.0. *)
Lemma penalty_gate_is_global :
  keywords_lower prefs_cover = [lit "cover"]
  /\ ~ In (lit "live") (keywords_lower prefs_cover)
  /\ title_of same_str record_a = Ok (lit "good day live")
  /\ artist_of same_str record_a = Ok (lit "iu")
  /\ occurs_as_word (is_word no_alnum) (lit "live") (lit "good day live iu")
  /\ penalty_of no_alnum (lit "good day live iu") prefs_cover = f0.
Proof.
  split; [by vm_compute|]. split.
  { vm_compute. intros [H|[]]. discriminate H. }
  split; [by vm_compute|]. split; [by vm_compute|].
  split; [apply live_in_good_day_live_iu|by vm_compute].
Qed.

Lemma store_ab_wf :
  Forall (fun it => exists d, store_ab !! it = Some d /\ wf_record d)
         [1%positive; 2%positive].
Proof.
  repeat constructor.
  - exists record_a. split; [by vm_compute|].
    repeat split; by vm_compute.
  - exists record_b. split; [by vm_compute|].
    repeat split; by vm_compute.
Qed.

Lemma rank_recommendations_sorted_permutation_witness :
  exists sorted : list (float * (loc * nat)),
    (rank_recommendations no_alnum same_str log10_table log10_const round_id
       store_ab [1%positive; 2%positive] prefs_iu).1
    = Ok (map (fun r => r.2.1) sorted)
    /\ length sorted = 2%nat.
Proof.
  destruct (rank_recommendations_sorted_permutation
              no_alnum same_str log10_table log10_const round_id
              log10_table_ge0 round_id_number
              store_ab [1%positive; 2%positive] prefs_iu
              eq_refl store_ab_wf) as (sorted & H1 & H2 & _).
  exists sorted. by split.
Defined.

Lemma zero_views_score_witness :
  pop_score_of log10_table log10_const record_b = Ok f0
  /\ score_item no_alnum same_str log10_table log10_const
       store_ab 2%positive prefs_iu
     = Ok (kw_score_of (lit "dynamite") (lit "bts")
             (lit "dynamite" ++ lit " " ++ lit "bts") prefs_iu * w_kw
           - penalty_of no_alnum (lit "dynamite" ++ lit " " ++ lit "bts")
               prefs_iu * w_pen)%float.
Proof.
  apply (zero_views_score no_alnum same_str log10_table log10_const
           store_ab 2%positive record_b prefs_iu (lit "dynamite") (lit "bts"));
    by vm_compute.
Defined.

Lemma rank_recommendations_keeps_inputs_witness :
  (rank_recommendations no_alnum same_str log10_table log10_const round_id
     store_ab [1%positive; 2%positive] prefs_iu).2 !! 1%positive
  = Some record_a.
Proof.
  apply (rank_recommendations_keeps_inputs no_alnum same_str log10_table
           log10_const round_id store_ab [1%positive; 2%positive] prefs_iu
           1%positive record_a).
  by vm_compute.
Defined.

(** * Further functions of src/main.py *)

(** ** _extract_video_ids *)

(** [r{n}] *)
Fixpoint times (n : nat) (r : regex) : regex :=
  match n with
  | O => Eps
  | S O => r
  | S n' => Seq r (times n' r)
  end.

(** [[?&]] and [[A-Za-z0-9_-]] *)
Definition query_mark (c : char) : bool := (c =? ch "?") || (c =? ch "&").
Definition id_char (c : char) : bool :=
  ascii_alnum c || (c =? ch "_") || (c =? ch "-").

(** [[?&]v=([A-Za-z0-9_-]{11})] *)
Definition re_video_id : regex :=
  cat [Cls query_mark; L "v="; Grp "1" (times 11 (Cls id_char))].

(** The match object of [re.search(r, s)], if any. *)
Fixpoint search_match (r : regex) (prev : option char) (s : str)
  : option mstate :=
  match rmatch r (MState prev s []) with
  | st :: _ => Some st
  | [] =>
      match s with
      | [] => None
      | c :: s' => search_match r (Some c) s'
      end
  end.

Definition re_search_match (r : regex) (s : str) : option mstate :=
  search_match r None s.

Fixpoint _extract_video_ids (urls : list str) : res (list str) :=
  match urls with
  | [] => Ok []
  | u :: urls' =>
      match re_search_match re_video_id u with
      | Some m =>
          v ← group (m_caps m) "1";
          ids ← _extract_video_ids urls';
          Ok (v :: ids)
      | None => _extract_video_ids urls'
      end
  end.

(** The URL that [youtube_search_music] stores for a video:
    [f"https://www.youtube.com/watch?v={vid}"]. *)
Definition watch_url (vid : str) : str :=
  lit "https://www.youtube.com/watch?v=" ++ vid.

Section VideoIds.

Implicit Types (s u pre rest vid : str) (prev : option char).

Lemma rmatch_times_cls p : forall n st,
  rmatch (times n (Cls p)) st
  = if (n <=? length (m_rest st))%nat && forallb p (take n (m_rest st))
    then [MState (last_or (m_prev st) (take n (m_rest st)))
                 (drop n (m_rest st)) (m_caps st)]
    else [].
Proof.
  induction n as [|n IH]; intros [pv s cs]; [done|].
  assert (rmatch (Seq (Cls p) (times n (Cls p))) (MState pv s cs)
          = if (S n <=? length s)%nat && forallb p (take (S n) s)
            then [MState (last_or pv (take (S n) s)) (drop (S n) s) cs]
            else []) as Hseq.
  { change (rmatch (Seq ?r1 ?r2) ?st)
      with (flat_map (rmatch r2) (rmatch r1 st)).
    cbn [rmatch m_rest m_prev m_caps].
    destruct s as [|c s]; [done|]. cbn [take firstn forallb length drop skipn].
    destruct (p c); [|by rewrite andb_false_r].
    cbn [flat_map]. rewrite IH, app_nil_r.
    cbn [m_rest m_prev m_caps andb].
    change (S n <=? S (length s))%nat with (n <=? length s)%nat.
    destruct ((n <=? length s)%nat && forallb p (take n s)); [|done].
    by rewrite (last_or_cons pv c). }
  destruct n as [|n]; [|exact Hseq].
  cbn [times rmatch m_rest m_prev m_caps].
  destruct s as [|c s]; [done|]. cbn [take firstn forallb length drop skipn].
  rewrite andb_true_r. by destruct (p c).
Qed.


Lemma rmatch_seq r1 r2 st :
  rmatch (Seq r1 r2) st = flat_map (rmatch r2) (rmatch r1 st).
Proof. reflexivity. Qed.

Lemma rmatch_cls p prev s cs :
  rmatch (Cls p) (MState prev s cs)
  = match s with
    | c :: t => if p c then [MState (Some c) t cs] else []
    | [] => []
    end.
Proof. reflexivity. Qed.

Lemma rmatch_grp n r st :
  rmatch (Grp n r) st
  = map (fun st' =>
           MState (m_prev st') (m_rest st')
             ((n, take (length (m_rest st) - length (m_rest st')) (m_rest st))
                :: m_caps st'))
        (rmatch r st).
Proof. reflexivity. Qed.

(** Where the pattern matches, and what it captures. *)
Lemma video_id_match prev s :
  rmatch re_video_id (MState prev s [])
  = match s with
    | q :: v :: e :: rest =>
        if query_mark q && (v =? ch "v") && (e =? ch "=")
           && (11 <=? length rest)%nat && forallb id_char (take 11 rest)
        then [MState (last_or (Some e) (take 11 rest)) (drop 11 rest)
                     [("1"%string, take 11 rest)]]
        else []
    | _ => []
    end.
Proof.
  change re_video_id
    with (Seq (Cls query_mark)
            (Seq (Seq (Cls (chr_is (ch "v"))) (Cls (chr_is (ch "="))))
                 (Grp "1" (times 11 (Cls id_char))))).
  rewrite rmatch_seq, rmatch_cls.
  destruct s as [|q s]; [done|].
  destruct (query_mark q); [|by destruct s as [|v [|e rest]]].
  cbn [flat_map andb]. rewrite app_nil_r, !rmatch_seq, rmatch_cls.
  destruct s as [|v s]; [done|].
  change (chr_is (ch "v") v) with (v =? ch "v").
  destruct (v =? ch "v"); [|by destruct s]. cbn [flat_map andb].
  rewrite app_nil_r, rmatch_cls.
  destruct s as [|e rest]; [done|].
  change (chr_is (ch "=") e) with (e =? ch "=").
  destruct (e =? ch "="); [|done]. cbn [flat_map andb].
  rewrite app_nil_r, rmatch_grp, rmatch_times_cls. cbn [m_rest m_prev m_caps].
  destruct (11 <=? length rest)%nat eqn:Hlen; [|done]. cbn [andb].
  destruct (forallb id_char (take 11 rest)); [|done].
  cbn [map m_rest m_prev m_caps]. apply Nat.leb_le in Hlen.
  rewrite length_drop.
  by replace (length rest - (length rest - 11))%nat with 11%nat by lia.
Qed.

Definition video_id (v : str) : Prop :=
  length v = 11%nat /\ forallb id_char v = true.

Lemma search_match_video : forall s prev m,
  search_match re_video_id prev s = Some m ->
  exists v, m_caps m = [("1"%string, v)] /\ video_id v.
Proof.
  induction s as [|q s IH]; intros prev m; cbn [search_match];
    rewrite video_id_match; [done|].
  destruct s as [|v [|e rest]]; try apply IH.
  destruct (_ && _) eqn:E; [|apply IH].
  intros [= <-]. eexists. split; [done|].
  apply andb_true_iff in E as [E Hall].
  apply andb_true_iff in E as [_ Hlen]. apply Nat.leb_le in Hlen.
  split; [|done]. rewrite length_take. lia.
Qed.

Lemma search_match_skip : forall pre prev s,
  forallb (fun c => negb (query_mark c)) pre = true ->
  search_match re_video_id prev (pre ++ s)
  = search_match re_video_id (last_or prev pre) s.
Proof.
  induction pre as [|c pre IH]; intros prev s H; [done|].
  cbn [forallb] in H. apply andb_true_iff in H as [Hc H].
  apply negb_true_iff in Hc.
  rewrite <- app_comm_cons. cbn [search_match]. rewrite video_id_match.
  rewrite last_or_cons, <- IH by done.
  destruct (pre ++ s) as [|v [|e rest]]; try done. by rewrite Hc.
Qed.

Lemma search_match_hit prev vid rest :
  video_id vid ->
  exists m,
    search_match re_video_id prev (ch "?" :: ch "v" :: ch "=" :: vid ++ rest)
    = Some m
    /\ m_caps m = [("1"%string, vid)].
Proof.
  intros [Hlen Hall]. cbn [search_match]. rewrite video_id_match.
  assert (take 11 (vid ++ rest) = vid) as Ht
    by (by rewrite <- Hlen, take_app_length).
  rewrite Ht, Hall.
  assert ((11 <=? length (vid ++ rest))%nat = true) as ->
    by (apply Nat.leb_le; rewrite length_app; lia).
  by eexists.
Qed.

(** Whatever the URLs, the call returns, and each identifier it returns is
    11 characters of [[A-Za-z0-9_-]]; no URL gives more than one. *)
Theorem extract_video_ids_well_formed (urls : list str) :
  exists ids,
    _extract_video_ids urls = Ok ids
    /\ Forall video_id ids
    /\ (length ids <= length urls)%nat.
Proof.
  induction urls as [|u urls (ids & IH & Hids & Hlen)]; [by exists []|].
  cbn [_extract_video_ids]. unfold re_search_match.
  destruct (search_match re_video_id None u) as [m|] eqn:E.
  - apply search_match_video in E as (v & -> & Hv).
    rewrite IH. exists (v :: ids). repeat split; [by constructor|].
    simpl. lia.
  - exists ids. repeat split; [done|done|]. simpl. lia.
Qed.

(** The identifiers of the URLs that [youtube_search_music] builds come
    back unchanged and in order. *)
Theorem extract_video_ids_of_watch_urls (vids : list str) :
  Forall video_id vids ->
  _extract_video_ids (map watch_url vids) = Ok vids.
Proof.
  induction 1 as [|vid vids Hv _ IH]; [done|].
  cbn [map _extract_video_ids]. unfold re_search_match.
  change (watch_url vid)
    with (lit "https://www.youtube.com/watch"
            ++ ch "?" :: ch "v" :: ch "=" :: vid).
  rewrite search_match_skip by (by vm_compute).
  rewrite <- (app_nil_r vid) at 1.
  destruct (search_match_hit
              (last_or None (lit "https://www.youtube.com/watch")) vid [] Hv)
    as (m & -> & ->).
  by rewrite IH.
Qed.

(** A URL without a [?] or [&] holds no identifier: it is dropped, and
    the identifiers of the other URLs are returned as if it were absent. *)
Theorem extract_video_ids_drops_plain_urls (l1 l2 : list str) (u : str) :
  forallb (fun c => negb (query_mark c)) u = true ->
  _extract_video_ids (l1 ++ u :: l2) = _extract_video_ids (l1 ++ l2).
Proof.
  intros Hu. induction l1 as [|x l1 IH]; cbn [app _extract_video_ids].
  - unfold re_search_match. rewrite <- (app_nil_r u).
    by rewrite search_match_skip.
  - by rewrite IH.
Qed.

End VideoIds.

Lemma extract_video_ids_of_watch_urls_witness :
  _extract_video_ids (map watch_url [lit "dQw4w9WgXcQ"; lit "a_b-c_d-e_f"])
  = Ok [lit "dQw4w9WgXcQ"; lit "a_b-c_d-e_f"].
Proof.
  apply (extract_video_ids_of_watch_urls [lit "dQw4w9WgXcQ"; lit "a_b-c_d-e_f"]).
  repeat constructor.
Defined.

Lemma extract_video_ids_drops_plain_urls_witness :
  _extract_video_ids ([watch_url (lit "dQw4w9WgXcQ")]
                      ++ lit "https://youtu.be/dQw4w9WgXcQ" :: [])
  = _extract_video_ids ([watch_url (lit "dQw4w9WgXcQ")] ++ []).
Proof.
  apply (extract_video_ids_drops_plain_urls [watch_url (lit "dQw4w9WgXcQ")] []
           (lit "https://youtu.be/dQw4w9WgXcQ")).
  by vm_compute.
Defined.

(** ** The search string *)

(** Every whitespace character of [s] is a plain space with no whitespace
    behind it. *)
Fixpoint single_spaced (s : str) : bool :=
  match s with
  | [] => true
  | c :: s' =>
      (negb (isspace c)
       || ((c =? ch " ") && negb (opt_word isspace (head s'))))
      && single_spaced s'
  end.

Section QueryString.

Implicit Types (s t : str) (prev : option char) (x : char).

#[local] Arguments ch : simpl never.

Abbreviation collapse_go := (sub_go (Rep true 1 isspace) (lit " ")).

Lemma rmatch_ws_run prev s :
  rmatch (Rep true 1 isspace) (MState prev s [])
  = map (fun '(pv, s') => MState pv s' []) (rep_from isspace 1 prev s).
Proof. reflexivity. Qed.

Lemma collapse_copy prev c s :
  isspace c = false ->
  collapse_go prev (c :: s) 0 = c :: collapse_go (Some c) s 0.
Proof.
  intros H. apply sub_go_copy. rewrite rmatch_ws_run, rep_from_none; [done|].
  simpl. rewrite H. simpl. lia.
Qed.

Lemma collapse_hit prev c s :
  isspace c = true ->
  exists pv,
    collapse_go prev (c :: s) 0
    = ch " " :: collapse_go pv (drop_while isspace s) 0.
Proof.
  intros Hc.
  destruct (rep_from_head isspace (c :: s) 1 prev) as [tl Hh].
  { simpl. rewrite Hc. simpl. lia. }
  assert (drop_while isspace (c :: s) = drop_while isspace s) as Hdw
    by (simpl; by rewrite Hc).
  rewrite Hdw in Hh.
  pose proof (length_drop_while isspace s) as Hlen.
  erewrite sub_go_hit; [| by rewrite rmatch_ws_run, Hh | done ].
  cbn [m_rest]. rewrite sub_go_skip by lia.
  rewrite drop_to_drop_while. by eexists.
Qed.

Lemma collapse_end prev : collapse_go prev [] 0 = [].
Proof. by apply sub_go_end. Qed.

(** What the collapsing leaves: single spaces, and non-whitespace ends
    where the text had them. *)
Lemma collapse_spec : forall n s prev,
  (length s <= n)%nat ->
  let o := collapse_go prev s 0 in
  single_spaced o = true
  /\ (opt_word isspace (head s) = false -> opt_word isspace (head o) = false)
  /\ (opt_word isspace (last s) = false -> opt_word isspace (last o) = false).
Proof.
  induction n as [|n IH]; intros s prev Hlen o; subst o.
  - destruct s; [|simpl in Hlen; lia]. by rewrite collapse_end.
  - destruct s as [|c s]; [by rewrite collapse_end|]. simpl in Hlen.
    destruct (isspace c) eqn:Hc.
    + destruct (collapse_hit prev c s Hc) as [pv ->].
      pose proof (length_drop_while isspace s) as Hl.
      destruct (IH (drop_while isspace s) pv) as (H1 & H2 & H3); [lia|].
      specialize (H2 (head_drop_while _ _)).
      split; [|split].
      * cbn [single_spaced]. rewrite H1, H2. by rewrite N.eqb_refl.
      * simpl. by rewrite Hc.
      * intros Hlast.
        destruct (drop_while isspace s) as [|d t] eqn:Ed.
        { rewrite <- (take_drop_while isspace s), Ed, app_nil_r in Hlast.
          assert (forallb isspace (c :: take_while isspace s) = true) as Hall.
          { simpl. rewrite Hc. simpl. clear. induction s as [|x s IH]; [done|].
            simpl. destruct (isspace x) eqn:E; [|done]. simpl. by rewrite E. }
          destruct (last (c :: take_while isspace s)) as [z|] eqn:Ez;
            [|by apply last_None in Ez].
          simpl in Hlast. apply last_Some in Ez as [l' El].
          rewrite El, forallb_app in Hall.
          apply andb_true_iff in Hall as [_ Hall]. simpl in Hall.
          rewrite Hlast in Hall. done. }
        assert (last (c :: s) = last (d :: t)) as El.
        { rewrite <- Ed, last_drop_while by (by rewrite Ed).
          rewrite last_cons. destruct (last s) eqn:E; [done|].
          apply last_None in E. by subst s. }
        rewrite El in Hlast. specialize (H3 Hlast).
        assert (isspace d = false) as Hd
          by (pose proof (head_drop_while isspace s) as Hh; by rewrite Ed in Hh).
        rewrite collapse_copy in H3 |- * by done.
        by rewrite last_cons_cons.
    + rewrite collapse_copy by done.
      destruct (IH s (Some c)) as (H1 & H2 & H3); [lia|].
      split; [|split].
      * cbn [single_spaced]. by rewrite Hc, H1.
      * simpl. by rewrite Hc.
      * intros Hlast. rewrite last_cons in Hlast |- *.
        destruct (last s) as [z|] eqn:Ez.
        -- specialize (H3 Hlast).
           by destruct (last (collapse_go (Some c) s 0)).
        -- apply last_None in Ez. subst s. rewrite collapse_end. simpl.
           by rewrite Hc.
Qed.

Lemma collapse_fixed : forall t prev,
  single_spaced t = true -> collapse_go prev t 0 = t.
Proof.
  induction t as [|c t IH]; intros prev H; [apply collapse_end|].
  cbn [single_spaced] in H. apply andb_true_iff in H as [Hc Ht].
  destruct (isspace c) eqn:Hws.
  - simpl in Hc. apply andb_true_iff in Hc as [Hsp Hnext].
    apply N.eqb_eq in Hsp as ->. apply negb_true_iff in Hnext.
    destruct (collapse_hit prev (ch " ") t Hws) as [pv ->].
    rewrite drop_while_id by done. by rewrite IH.
  - rewrite collapse_copy by done. by rewrite IH.
Qed.

(** [re.sub] brings in no character that neither the text nor the
    replacement holds. *)
Lemma sub_go_has r repl x :
  has x repl = false ->
  forall s prev k, has x (sub_go r repl prev s k) = true -> has x s = true.
Proof.
  intros Hrepl. induction s as [|c s IH]; intros prev k.
  - destruct k; [|done]. cbn [sub_go].
    destruct (first_len false _) as [[|n]|]; try done;
      [destruct (first_len true _) as [[|n]|]|];
      rewrite ?has_app, ?Hrepl; done.
  - assert (forall n, has x (sub_go r repl (Some c) s n) = true ->
                      has x (c :: s) = true) as Hnext.
    { intros n H. apply IH in H. simpl. by rewrite H, orb_true_r. }
    assert (has x (c :: sub_go r repl (Some c) s 0) = true ->
            has x (c :: s) = true) as Hcopy.
    { simpl. intros [H|H]%orb_true_iff; [by rewrite H|].
      apply IH in H. by rewrite H, orb_true_r. }
    destruct k; [|apply Hnext]. cbn [sub_go].
    destruct (first_len false _) as [[|n]|]; [| |done].
    + destruct (first_len true _) as [[|n]|];
        rewrite ?has_app, ?Hrepl; cbn [orb]; eauto.
    + rewrite has_app, Hrepl. apply Hnext.
Qed.

Lemma has_strip_chars p x s :
  has x s = false -> has x (strip_chars p s) = false.
Proof.
  intros H. destruct (strip_chars_infix p s) as (l & r & E).
  rewrite E, !has_app in H.
  by apply orb_false_iff in H as [_ [H _]%orb_false_iff].
Qed.

Lemma has_replace_char x y s :
  x <> y -> has x (replace_char x y s) = false.
Proof.
  intros Hne. induction s as [|c s IH]; [done|]. simpl. rewrite IH.
  rewrite orb_false_r. unfold chr_is.
  destruct (N.eqb_spec c x) as [->|Hc]; apply N.eqb_neq; congruence.
Qed.

Lemma replace_char_id x y s : has x s = false -> replace_char x y s = s.
Proof.
  induction s as [|c s IH]; [done|]. simpl.
  intros [Hc Hs]%orb_false_iff. unfold chr_is in Hc. by rewrite Hc, IH.
Qed.

Lemma has_join x sep (l : list str) :
  has x sep = false -> Forall (fun k => has x k = false) l ->
  has x (join sep l) = false.
Proof.
  intros Hsep. induction 1 as [|k l Hk _ IH]; [done|].
  destruct l as [|k' l]; [done|].
  change (join sep (k :: k' :: l)) with (k ++ sep ++ join sep (k' :: l)).
  by rewrite !has_app, Hk, Hsep, IH.
Qed.

(** The text of the argument: the string itself, or the joined sequence. *)
Definition raw_text (keywords : keywords_arg) : str :=
  match keywords with
  | KStr s => s
  | KSeq l => join (lit " ") l
  end.

Definition comma_free (keywords : keywords_arg) : Prop :=
  match keywords with
  | KStr s => has (ch ",") s = false
  | KSeq l => Forall (fun k => has (ch ",") k = false) l
  end.

Lemma comma_free_raw keywords :
  comma_free keywords -> has (ch ",") (raw_text keywords) = false.
Proof. destruct keywords as [s|l]; [done|]. by apply has_join. Qed.

(** The search string never holds a comma, and its whitespace is single
    plain spaces. *)
Theorem build_query_normal_form (keywords : keywords_arg) :
  has (ch ",") (build_ytmusic_query keywords) = false
  /\ single_spaced (build_ytmusic_query keywords) = true.
Proof.
  unfold build_ytmusic_query, re_sub. fold (raw_text keywords). split.
  - destruct (has (ch ",") (collapse_go None _ 0)) eqn:E; [|done].
    apply sub_go_has in E; [|done].
    by rewrite has_replace_char in E.
  - by apply (collapse_spec _ _ None (Nat.le_refl _)).
Qed.

Lemma build_query_fixed (keywords : keywords_arg) :
  comma_free keywords ->
  build_ytmusic_query (KStr (build_ytmusic_query keywords))
  = build_ytmusic_query keywords.
Proof.
  intros Hfree. apply comma_free_raw in Hfree.
  assert (build_ytmusic_query keywords
          = collapse_go None (strip (raw_text keywords)) 0) as Hq.
  { unfold build_ytmusic_query, re_sub. fold (raw_text keywords).
    by rewrite replace_char_id by (by apply has_strip_chars). }
  set (q := build_ytmusic_query keywords) in *.
  destruct (collapse_spec _ (strip (raw_text keywords)) None (Nat.le_refl _))
    as (Hsingle & Hhead & Hlast).
  destruct (strip_chars_edges isspace (raw_text keywords)) as [Eh El].
  rewrite <- Hq in Hsingle, Hhead, Hlast.
  assert (has (ch ",") q = false) as Hno.
  { destruct (has (ch ",") q) eqn:E; [|done]. rewrite Hq in E.
    apply sub_go_has in E; [|done]. unfold strip in E.
    by rewrite has_strip_chars in E. }
  unfold build_ytmusic_query at 1. unfold re_sub, strip.
  rewrite (strip_chars_id isspace q) by auto.
  rewrite replace_char_id by done. by apply collapse_fixed.
Qed.

(** On an argument without commas a second application changes nothing
    (with a comma at an end of the text it does). *)
Theorem build_query_idempotent_without_commas (keywords : keywords_arg) :
  comma_free keywords ->
  build_ytmusic_query (KStr (build_ytmusic_query keywords))
  = build_ytmusic_query keywords.
Proof. apply build_query_fixed. Qed.

End QueryString.

Lemma build_query_idempotent_without_commas_witness :
  build_ytmusic_query
    (KStr (build_ytmusic_query (KSeq [lit "k-pop"; lit " ballad "])))
  = build_ytmusic_query (KSeq [lit "k-pop"; lit " ballad "]).
Proof.
  apply (build_query_idempotent_without_commas
           (KSeq [lit "k-pop"; lit " ballad "])).
  repeat constructor.
Defined.

(** ** build_user_prefs and the keywords of the main program *)

Section UserPrefs.

Variable uni_lower : str -> str.

Implicit Types (s k : str) (l : list str).

#[local] Arguments ch : simpl never.

(** The keywords the argument is split into, before trimming. *)
Definition raw_keywords (kws_in : keywords_arg) : list str :=
  match kws_in with
  | KStr s => split_on (ch ",") s
  | KSeq l => l
  end.

Lemma keywords_build_user_prefs kws_in :
  keywords (build_user_prefs uni_lower kws_in)
  = map strip (List.filter (fun k => nonempty (strip k)) (raw_keywords kws_in)).
Proof. by destruct kws_in. Qed.

Lemma split_on_no_sep x : forall s, Forall (fun k => has x k = false) (split_on x s).
Proof.
  induction s as [|c s IH]; [by repeat constructor|]. simpl.
  destruct (N.eqb_spec c x) as [->|Hne].
  - by constructor.
  - destruct (split_on x s) as [|w ws]; [|apply Forall_cons in IH as [Hw Hws]].
    + repeat constructor. simpl. unfold chr_is.
      by rewrite (proj2 (N.eqb_neq c x) Hne).
    + constructor; [|done]. simpl. unfold chr_is.
      by rewrite (proj2 (N.eqb_neq c x) Hne).
Qed.

(** Every keyword is non-empty and has no whitespace at either end; the
    lowercased list runs parallel to the keywords; the penalty terms are
    the fixed three. *)
Theorem build_user_prefs_keywords (kws_in : keywords_arg) :
  let p := build_user_prefs uni_lower kws_in in
  Forall (fun k => nonempty k = true
                   /\ opt_word isspace (head k) = false
                   /\ opt_word isspace (last k) = false) (keywords p)
  /\ keywords_lower p = map (lower uni_lower) (keywords p)
  /\ penalty_terms p = fixed_terms.
Proof.
  intros p. split; [|by destruct kws_in].
  subst p. rewrite keywords_build_user_prefs.
  induction (raw_keywords kws_in) as [|k l IH]; [constructor|].
  cbn [List.filter]. destruct (nonempty (strip k)) eqn:E; [|done].
  cbn [map]. constructor; [|done].
  split; [done|]. apply strip_chars_edges.
Qed.

(** A keyword list made from a comma-separated string holds no comma. *)
Lemma keywords_of_string_comma_free s :
  Forall (fun k => has (ch ",") k = false)
         (keywords (build_user_prefs uni_lower (KStr s))).
Proof.
  rewrite keywords_build_user_prefs. cbn [raw_keywords].
  pose proof (split_on_no_sep (ch ",") s) as H.
  induction H as [|k l Hk _ IH]; [constructor|].
  cbn [List.filter]. destruct (nonempty (strip k)); [|done].
  cbn [map]. constructor; [|done]. by apply has_strip_chars.
Qed.

(** The main program splits the input at commas, trims the pieces and
    drops the empty ones before it builds the search string: for such
    keywords the search string is already in its final form. *)
Theorem query_of_split_keywords_is_stable (user_input : str) :
  let kws := keywords (build_user_prefs uni_lower (KStr user_input)) in
  build_ytmusic_query (KStr (build_ytmusic_query (KSeq kws)))
  = build_ytmusic_query (KSeq kws).
Proof.
  intros kws. apply build_query_fixed.
  apply keywords_of_string_comma_free.
Qed.

End UserPrefs.

(** ** The shape of cleaned titles and of the extractor's result *)

(** [s] neither begins nor ends with whitespace. *)
Definition trimmed (s : str) : Prop :=
  opt_word isspace (head s) = false /\ opt_word isspace (last s) = false.

Section ExtractorShape.

Variable uni_alnum : char -> bool.
Variable uni_lower : str -> str.

Implicit Types (s t : str) (st : mstate) (r : regex).

#[local] Arguments ch : simpl never.

(** A cleaned title has no whitespace at its ends, no two whitespace
    characters in a row, and no opening bracket with a closing bracket
    behind it. *)
Theorem clean_title_normal_form (s : str) :
  trimmed (_clean_title uni_alnum s)
  /\ no_ws_run (_clean_title uni_alnum s) = true
  /\ bracket_free (_clean_title uni_alnum s) = true.
Proof.
  split; [apply clean_title_edges|]. split.
  - apply clean_title_no_ws_run.
  - apply clean_title_bracket_free.
Qed.

Lemma strip_trimmed s : trimmed (strip s).
Proof. apply strip_chars_edges. Qed.

Lemma try_patterns_some ps t title artist :
  try_patterns uni_alnum ps t = Ok (Some (title, artist)) ->
  exists a b,
    title = _clean_title uni_alnum b /\ artist = _clean_title uni_alnum a
    /\ nonempty title = true /\ nonempty artist = true.
Proof.
  induction ps as [|p ps IH]; [done|]. cbn [try_patterns].
  destruct (re_match p t) as [m|]; [|done].
  destruct (group (m_caps m) "artist") as [a|e]; [|done].
  destruct (group (m_caps m) "title") as [b|e]; [|done]. simpl.
  destruct (nonempty (_clean_title uni_alnum a)) eqn:Ea; [|done].
  destruct (nonempty (_clean_title uni_alnum b)) eqn:Eb; [|done].
  simpl. intros [= <- <-]. by exists a, b.
Qed.

(** Whatever the arguments, the title and the artist that come back have no
    whitespace at either end. *)
Theorem extract_title_artist_trimmed
  (video_title channel_title : option str) (title artist : str) :
  extract_title_artist uni_alnum uni_lower video_title channel_title
  = Ok (title, artist) ->
  trimmed title /\ trimmed artist.
Proof.
  unfold extract_title_artist, extract_with.
  destruct (try_patterns uni_alnum patterns _) as [[[ti ar]|]|e] eqn:E;
    simpl; [| |done].
  - intros [= <- <-]. apply try_patterns_some in E as (a & b & -> & -> & _).
    split; apply clean_title_edges.
  - set (t := _clean_title uni_alnum (or_empty video_title)).
    set (c := strip (or_empty channel_title)).
    set (c' := if nonempty c && endswith (lower uni_lower c) (lit " - topic")
               then strip (take (length c - 8) c) else c).
    assert (trimmed c') as Hc'.
    { subst c'. destruct (_ && _); apply strip_trimmed. }
    destruct (nonempty t && nonempty c').
    + intros [= <- <-]. split; [apply clean_title_edges|done].
    + intros [= <- <-]. split; apply strip_trimmed.
Qed.

(** *** Titles without a delimiter *)

(** Matching only moves forward: what is left is a suffix of the text. *)
Lemma rmatch_rest_suffix r : forall st st',
  In st' (rmatch r st) -> exists w, m_rest st = w ++ m_rest st'.
Proof.
  induction r; intros st st' Hin; simpl in Hin.
  - destruct Hin as [<-|[]]. by exists [].
  - destruct (m_rest st) as [|x s'] eqn:Es; [done|].
    destruct (p x); [|done]. destruct Hin as [<-|[]]. by exists [x].
  - apply in_flat_map in Hin as (st1 & H1 & H2).
    apply IHr1 in H1 as [w1 E1]. apply IHr2 in H2 as [w2 E2].
    exists (w1 ++ w2). by rewrite E1, E2, app_assoc.
  - apply in_app_or in Hin as [H|H]; eauto.
  - apply in_app_or in Hin as [H|[<-|[]]]; eauto. by exists [].
  - apply in_map_iff in Hin as ([pv s'] & <- & Hin).
    destruct greedy; [|apply in_rev in Hin];
      apply rep_from_suffix in Hin as (w & E & _); by exists w.
  - apply in_map_iff in Hin as (st1 & <- & H1). by apply IHr in H1.
  - destruct (m_prev st); [done|]. destruct Hin as [<-|[]]. by exists [].
  - destruct (m_rest st) as [|x [|y s']] eqn:Es; try done.
    + destruct Hin as [<-|[]]. exists []. by rewrite Es.
    + destruct (x =? 10); [|done]. destruct Hin as [<-|[]]. exists [].
      by rewrite Es.
  - destruct (xorb _ _); [|done]. destruct Hin as [<-|[]]. by exists [].
Qed.

(** A pattern that must read the character [d] somewhere has no match in a
    text without [d]. *)
Definition blocked (d : char) (r : regex) : Prop :=
  forall st, has d (m_rest st) = false -> rmatch r st = [].

Lemma blocked_cls d r : blocked d (Seq (Cls (chr_is d)) r).
Proof.
  intros [pv s cs] H. rewrite rmatch_seq, rmatch_cls.
  destruct s as [|c s]; [done|]. cbn [m_rest] in H. simpl in H.
  apply orb_false_iff in H as [H _]. by rewrite H.
Qed.

Lemma blocked_seq d r1 r2 : blocked d r2 -> blocked d (Seq r1 r2).
Proof.
  intros Hb st H. rewrite rmatch_seq. apply flat_map_all_nil.
  intros st1 Hin. apply Hb.
  apply rmatch_rest_suffix in Hin as [w E]. rewrite E, has_app in H.
  by apply orb_false_iff in H as [_ H].
Qed.

Lemma sep_pattern_blocked g1 d g2 : blocked d (sep_pattern g1 d g2).
Proof.
  unfold sep_pattern. cbn [cat].
  do 4 apply blocked_seq. apply blocked_cls.
Qed.

Lemma try_patterns_blocked t :
  has (ch "-") t = false -> has em_dash t = false ->
  try_patterns uni_alnum patterns t = Ok None.
Proof.
  intros H1 H2. unfold patterns. cbn [try_patterns]. unfold re_match.
  by rewrite !sep_pattern_blocked.
Qed.

(** When the cleaned title holds neither a hyphen nor an em dash, no
    pattern applies: the result is that of the fallback chain alone (the
    extractor run with an empty pattern list). *)
Theorem extract_without_delimiter (video_title channel_title : option str) :
  has (ch "-") (_clean_title uni_alnum (or_empty video_title)) = false ->
  has em_dash (_clean_title uni_alnum (or_empty video_title)) = false ->
  extract_title_artist uni_alnum uni_lower video_title channel_title
  = extract_with uni_alnum uni_lower [] video_title channel_title.
Proof.
  intros H1 H2. unfold extract_title_artist, extract_with.
  by rewrite try_patterns_blocked.
Qed.

(** A title and an artist taken from a pattern are both non-empty; so when
    the result has an empty part, it is the result of the fallback chain. *)
Theorem extract_empty_part_is_fallback
  (video_title channel_title : option str) (title artist : str) :
  extract_title_artist uni_alnum uni_lower video_title channel_title
  = Ok (title, artist) ->
  nonempty title && nonempty artist = false ->
  extract_with uni_alnum uni_lower [] video_title channel_title
  = Ok (title, artist).
Proof.
  unfold extract_title_artist, extract_with.
  destruct (try_patterns uni_alnum patterns _) as [[[ti ar]|]|e] eqn:E;
    simpl; [|done|done].
  intros [= <- <-] Hempty.
  apply try_patterns_some in E as (a & b & _ & _ & Ht & Ha).
  by rewrite Ht, Ha in Hempty.
Qed.

End ExtractorShape.

Lemma extract_title_artist_trimmed_witness :
  trimmed (lit "Good Day") /\ trimmed (lit "IU").
Proof.
  apply (extract_title_artist_trimmed no_alnum same_str
           (Some (lit " IU - Good Day [MV] ")) (Some (lit " IU "))).
  by vm_compute.
Defined.

Lemma extract_without_delimiter_witness :
  extract_title_artist no_alnum same_str
    (Some (lit "Dynamite (Official Video)")) (Some (lit "BTS - Topic"))
  = extract_with no_alnum same_str []
      (Some (lit "Dynamite (Official Video)")) (Some (lit "BTS - Topic")).
Proof.
  apply (extract_without_delimiter no_alnum same_str
           (Some (lit "Dynamite (Official Video)")) (Some (lit "BTS - Topic")));
    by vm_compute.
Defined.

Lemma extract_empty_part_is_fallback_witness :
  extract_with no_alnum same_str [] (Some (lit "[MV]")) (Some [])
  = Ok (lit "[MV]", []).
Proof.
  apply (extract_empty_part_is_fallback no_alnum same_str
           (Some (lit "[MV]")) (Some []) (lit "[MV]") []); by vm_compute.
Defined.

(** ** More about score_item *)

(** The fields of a record that [score_item] reads. *)
Definition scored_fields : list string :=
  ["song_title"; "title"; "artist"; "channel"; "views"]%string.

Section ScoreEdges.

Variable uni_alnum : char -> bool.
Variable uni_lower : str -> str.
Variable log10_int : Z -> float.
Variable log10_float : float -> float.

Implicit Types (h : store) (d : dict) (p : prefs) (it : loc).

(** For a well-formed record and the fixed penalty terms the score is a
    number: the call does not raise and the result is not NaN (given that the
    logarithm of a positive integer is not below zero). *)
Theorem score_item_returns_number h it d p :
  (forall n, (0 < n)%Z -> (f0 <=? log10_int n)%float = true) ->
  h !! it = Some d ->
  wf_record d ->
  penalty_terms p = fixed_terms ->
  exists s,
    score_item uni_alnum uni_lower log10_int log10_float h it p = Ok s
    /\ is_nan s = false.
Proof.
  intros Hlog Hit Hwf Hp. unfold score_item. rewrite Hit.
  by apply score_dict_number.
Qed.

(** A negative view count makes the call raise [ValueError]: the logarithm
    is taken of [views + 1], which is then not positive. *)
Theorem score_item_negative_views h it d p (n : Z) :
  h !! it = Some d ->
  str_or_none (d !! "song_title") -> str_or_none (d !! "title") ->
  str_or_none (d !! "artist") -> str_or_none (d !! "channel") ->
  d !! "views" = Some (VInt n) ->
  (n < 0)%Z ->
  score_item uni_alnum uni_lower log10_int log10_float h it p
  = Raise ValueError.
Proof.
  intros Hit H1 H2 H3 H4 Hv Hn. unfold score_item, score_dict. rewrite Hit.
  destruct (name_ok uni_lower d "song_title" "title" H1 H2) as [title Ht].
  destruct (name_ok uni_lower d "artist" "channel" H3 H4) as [artist Ha].
  unfold title_of, artist_of. rewrite Ht, Ha.
  cbn [mbind res_mbind res_bind].
  assert (views_of d = VInt n) as Hviews.
  { unfold views_of, dict_get_or, py_or. rewrite Hv. simpl.
    by destruct (Z.eqb_spec n 0); [lia|]. }
  assert (pop_score_of log10_int log10_float d = Raise ValueError) as ->.
  { unfold pop_score_of. rewrite Hviews. simpl.
    by destruct (Z.ltb_spec 0 (n + 1)); [lia|]. }
  done.
Qed.

(** A song title that is a non-zero number instead of a string makes the
    call raise [AttributeError], before anything else is looked at. *)
Theorem score_item_numeric_title h it d p (n : Z) :
  h !! it = Some d ->
  d !! "song_title" = Some (VInt n) ->
  n <> 0%Z ->
  score_item uni_alnum uni_lower log10_int log10_float h it p
  = Raise AttributeError.
Proof.
  intros Hit Ht Hn. unfold score_item, score_dict, title_of. rewrite Hit.
  unfold dict_get at 1. rewrite Ht. unfold py_or at 1. simpl.
  by destruct (Z.eqb_spec n 0).
Qed.

Lemma is_prefix_app k a b : is_prefix k a = true -> is_prefix k (a ++ b) = true.
Proof.
  revert a. induction k as [|x k IH]; intros a; [done|].
  destruct a as [|y a]; [done|]. simpl.
  intros [-> H]%andb_true_iff. simpl. auto.
Qed.

Lemma contains_app_l a b k : contains a k = true -> contains (a ++ b) k = true.
Proof.
  induction a as [|y a IH].
  - simpl. rewrite orb_false_r. intros H.
    destruct k; [|done]. by destruct b.
  - cbn [contains app]. intros [H|H]%orb_true_iff.
    + change (y :: a ++ b) with ((y :: a) ++ b).
      by rewrite is_prefix_app.
    + rewrite IH by done. apply orb_true_r.
Qed.

Lemma contains_app_r a b k : contains b k = true -> contains (a ++ b) k = true.
Proof.
  intros H. induction a as [|y a IH]; [done|].
  cbn [contains app]. rewrite IH. apply orb_true_r.
Qed.

(** A keyword found in the song title or in the artist is found in the
    combined text too: it earns the 2.0 for the text besides the 1.0 for
    each of the two that holds it, so a keyword never adds just 1.0. *)
Theorem kw_step_hit (title artist : str) (acc : float) (kw : str) :
  nonempty kw = true ->
  contains title kw || contains artist kw = true ->
  contains (title ++ lit " " ++ artist) kw = true
  /\ kw_step title artist (title ++ lit " " ++ artist) acc kw
     = (let s := (acc + f2)%float in
        let s := if contains title kw then (s + f1)%float else s in
        if contains artist kw then (s + f1)%float else s).
Proof.
  intros Hne Hhit.
  assert (contains (title ++ lit " " ++ artist) kw = true) as Htext.
  { apply orb_true_iff in Hhit as [H|H].
    - by apply contains_app_l.
    - rewrite app_assoc. by apply contains_app_r. }
  split; [done|]. unfold kw_step. by rewrite Hne, Htext.
Qed.

(** The score looks at five fields of the record, and at the lowercased
    keywords and the penalty terms of the preferences, and at nothing else:
    records that agree on these fields, whatever their other fields (the url,
    the score of a ranked copy) and whatever stores they live in, get the
    same score or raise the same exception. *)
Theorem score_item_reads_scored_fields h1 h2 (it1 it2 : loc) d1 d2 p1 p2 :
  h1 !! it1 = Some d1 ->
  h2 !! it2 = Some d2 ->
  Forall (fun k => d1 !! k = d2 !! k) scored_fields ->
  keywords_lower p1 = keywords_lower p2 ->
  penalty_terms p1 = penalty_terms p2 ->
  score_item uni_alnum uni_lower log10_int log10_float h1 it1 p1
  = score_item uni_alnum uni_lower log10_int log10_float h2 it2 p2.
Proof.
  intros H1 H2 Hd Hk Hp. unfold score_item. rewrite H1, H2.
  unfold scored_fields in Hd.
  apply Forall_cons in Hd as [Est Hd]. apply Forall_cons in Hd as [Et Hd].
  apply Forall_cons in Hd as [Ea Hd]. apply Forall_cons in Hd as [Ec Hd].
  apply Forall_cons in Hd as [Ev _].
  unfold score_dict, title_of, artist_of, pop_score_of, views_of, dict_get,
    dict_get_or, kw_score_of, penalty_of, kw_has_penalty_terms.
  by rewrite Est, Et, Ea, Ec, Ev, Hk, Hp.
Qed.

End ScoreEdges.

Definition record_negative : dict :=
  {[ "song_title" := VStr (lit "Song"); "views" := VInt (-5) ]}.

Definition record_numeric : dict := {[ "song_title" := VInt 7 ]}.

Lemma score_item_returns_number_witness :
  exists s,
    score_item no_alnum same_str log10_table log10_const
      store_ab 1%positive prefs_iu = Ok s
    /\ is_nan s = false.
Proof.
  apply (score_item_returns_number no_alnum same_str log10_table log10_const
           store_ab 1%positive record_a prefs_iu log10_table_ge0).
  - by vm_compute.
  - repeat split; by vm_compute.
  - reflexivity.
Defined.

Lemma score_item_negative_views_witness :
  score_item no_alnum same_str log10_table log10_const
    {[ 1%positive := record_negative ]} 1%positive prefs_iu
  = Raise ValueError.
Proof.
  apply (score_item_negative_views no_alnum same_str log10_table log10_const
           {[ 1%positive := record_negative ]} 1%positive record_negative
           prefs_iu (-5)%Z); by vm_compute.
Defined.

Lemma score_item_numeric_title_witness :
  score_item no_alnum same_str log10_table log10_const
    {[ 1%positive := record_numeric ]} 1%positive prefs_iu
  = Raise AttributeError.
Proof.
  apply (score_item_numeric_title no_alnum same_str log10_table log10_const
           {[ 1%positive := record_numeric ]} 1%positive record_numeric
           prefs_iu 7%Z); by vm_compute.
Defined.

Lemma kw_step_hit_witness :
  contains (lit "good day" ++ lit " " ++ lit "iu") (lit "iu") = true
  /\ kw_step (lit "good day") (lit "iu") (lit "good day" ++ lit " " ++ lit "iu")
       f0 (lit "iu")
     = (let s := (f0 + f2)%float in
        let s := if contains (lit "good day") (lit "iu")
                 then (s + f1)%float else s in
        if contains (lit "iu") (lit "iu") then (s + f1)%float else s).
Proof.
  apply (kw_step_hit (lit "good day") (lit "iu") f0 (lit "iu")); by vm_compute.
Defined.

(** [record_a] as a ranked copy with a url, and preferences with the same
    lowercased keywords as [prefs_iu] under other spellings. *)
Definition record_a_ranked : dict :=
  <["score" := VFloat f1]> (<["url" := VStr (lit "https://x")]> record_a).

Definition prefs_iu_upper : prefs :=
  Prefs [lit "Iu"; lit "DYNAMITE"] (keywords_lower prefs_iu)
    (penalty_terms prefs_iu).

Lemma score_item_reads_scored_fields_witness :
  score_item no_alnum same_str log10_table log10_const
    store_ab 1%positive prefs_iu
  = score_item no_alnum same_str log10_table log10_const
      {[ 7%positive := record_a_ranked ]} 7%positive prefs_iu_upper.
Proof.
  apply (score_item_reads_scored_fields no_alnum same_str log10_table
           log10_const store_ab {[ 7%positive := record_a_ranked ]}
           1%positive 7%positive record_a record_a_ranked
           prefs_iu prefs_iu_upper);
    try (by vm_compute).
  repeat constructor; by vm_compute.
Defined.

(** ** More about rank_recommendations *)

Section RankAllocation.

Variable uni_alnum : char -> bool.
Variable uni_lower : str -> str.
Variable log10_int : Z -> float.
Variable log10_float : float -> float.
Variable round3 : float -> float.

Abbreviation rank_loop'' :=
  (rank_loop uni_alnum uni_lower log10_int log10_float round3).

Implicit Types (h : store) (d : dict) (p : prefs) (items ranked out : list loc).

(** What the loop allocates: one new dict per item, at references that were
    free, and nothing else. *)
Lemma rank_loop_alloc p : forall items ranked h r h',
  rank_loop'' items p ranked h = (Ok r, h') ->
  exists new,
    r = ranked ++ new
    /\ length new = length items
    /\ NoDup new
    /\ Forall (fun l => h !! l = None /\ is_Some (h' !! l)) new
    /\ h ⊆ h'
    /\ (forall l, is_Some (h' !! l) -> is_Some (h !! l) \/ l ∈ new).
Proof.
  induction items as [|it items IH]; intros ranked h r h' Hloop.
  - injection Hloop as <- <-. exists []. rewrite app_nil_r.
    repeat split; try done; [constructor|auto].
  - cbn [rank_loop] in Hloop.
    destruct (score_item _ _ _ _ h it p) as [s|e]; [|done].
    destruct (h !! it) as [d|] eqn:Ed; [|done].
    destruct (alloc_setitem h d "score" (VFloat (round3 s))) as [Hfresh E].
    cbn zeta in E. unfold alloc in *. cbn [fst snd] in *.
    set (l := fresh (dom h)) in *. rewrite E in Hloop.
    set (h1 := <[l := <["score" := VFloat (round3 s)]> d]> h) in *.
    apply IH in Hloop as (new & -> & Hlen & Hnd & Hall & Hsub & Hdom).
    assert (h ⊆ h1) as Hsub1 by (by apply insert_subseteq).
    assert (h1 !! l = Some (<["score" := VFloat (round3 s)]> d)) as Hl
      by apply lookup_insert_eq.
    exists (l :: new). rewrite <- app_assoc. repeat split.
    + simpl. by rewrite Hlen.
    + constructor; [|done]. intros Hin.
      rewrite Forall_forall in Hall. destruct (Hall l Hin) as [Hnone _].
      by rewrite Hl in Hnone.
    + constructor.
      * split; [done|]. exists (<["score" := VFloat (round3 s)]> d).
        by eapply lookup_weaken.
      * eapply Forall_impl; [exact Hall|]. intros x [Hx Hs]. split; [|done].
        destruct (h !! x) as [dx|] eqn:Ex; [|done].
        by rewrite (lookup_weaken _ _ _ _ Ex Hsub1) in Hx.
    + by etrans.
    + intros x Hx. destruct (Hdom x Hx) as [H1|Hin].
      * destruct (decide (x = l)) as [->|Hne]; [right; by left|].
        left. subst h1. by rewrite lookup_insert_ne in H1.
      * right. by right.
Qed.

Lemma decorate_refs h' : forall r keyed,
  decorate h' r = Ok keyed -> map snd keyed = r.
Proof.
  induction r as [|x r IH]; intros keyed; cbn [decorate].
  - by intros [= <-].
  - destruct (score_key h' x) as [k|e]; [|done]. cbn [mbind res_mbind res_bind].
    destruct (decorate h' r) as [keyed'|e]; [|done].
    cbn [mbind res_mbind res_bind]. intros [= <-]. simpl. f_equal. by apply IH.
Qed.

(** The references that are returned are new and pairwise distinct, one per
    item: no returned record is an input record, and the store grows by
    exactly these dicts. *)
Theorem rank_recommendations_returns_fresh_copies h items p out :
  (rank_recommendations uni_alnum uni_lower log10_int log10_float round3
     h items p).1 = Ok out ->
  length out = length items
  /\ NoDup out
  /\ (forall l, l ∈ out -> h !! l = None)
  /\ (forall l,
      is_Some ((rank_recommendations uni_alnum uni_lower log10_int log10_float
                  round3 h items p).2 !! l)
      <-> is_Some (h !! l) \/ l ∈ out).
Proof.
  unfold rank_recommendations.
  destruct (rank_loop'' items p [] h) as [[ranked|e] h'] eqn:Hloop; [|done].
  apply rank_loop_alloc in Hloop as (new & -> & Hlen & Hnd & Hall & Hsub & Hdom).
  cbn [app].
  destruct (decorate h' new) as [keyed|e] eqn:Hdec; [|done].
  cbn [fst snd]. intros [= <-].
  apply decorate_refs in Hdec.
  assert (map snd (sort_desc keyed) ≡ₚ new) as Hperm
    by (by rewrite sort_desc_perm, Hdec).
  rewrite Forall_forall in Hall.
  split; [by rewrite Hperm|]. split; [by rewrite Hperm|]. split.
  - intros l Hl. rewrite Hperm in Hl. by apply Hall.
  - intros l. rewrite Hperm. split; [apply Hdom|].
    intros [[d Hd]|Hin].
    + exists d. by eapply lookup_weaken.
    + by apply Hall.
Qed.

(** One record that cannot be scored aborts the call: when the score of
    some item raises, the call raises and returns no list. *)
Theorem rank_recommendations_propagates_errors h items p it d e :
  it ∈ items ->
  h !! it = Some d ->
  score_item uni_alnum uni_lower log10_int log10_float h it p = Raise e ->
  exists e',
    (rank_recommendations uni_alnum uni_lower log10_int log10_float round3
       h items p).1 = Raise e'.
Proof.
  intros Hin Hd Hraise. unfold rank_recommendations.
  assert (forall ranked h1, h ⊆ h1 ->
            exists e' h', rank_loop'' items p ranked h1 = (Raise e', h'))
    as Hloop.
  { induction items as [|x items IH]; intros ranked h1 Hsub.
    - by apply elem_of_nil in Hin.
    - cbn [rank_loop].
      destruct (score_item _ _ _ _ h1 x p) as [s|e1] eqn:Hs; [|by eauto].
      destruct (h1 !! x) as [dx|] eqn:Ex; [|by eauto].
      apply elem_of_cons in Hin as [->|Hin].
      + unfold score_item in Hs, Hraise.
        rewrite (lookup_weaken _ _ _ _ Hd Hsub) in Hs. rewrite Hd in Hraise.
        congruence.
      + destruct (alloc_setitem h1 dx "score" (VFloat (round3 s))) as [Hfresh E].
        cbn zeta in E. unfold alloc in *. cbn [fst snd] in *. rewrite E.
        apply IH; [done|]. etrans; [exact Hsub|]. by apply insert_subseteq. }
  destruct (Hloop [] h) as (e' & h' & ->); [done|]. by exists e'.
Qed.

End RankAllocation.

Lemma rank_recommendations_returns_fresh_copies_witness :
  length [4%positive; 3%positive] = length [1%positive; 2%positive]
  /\ NoDup [4%positive; 3%positive]
  /\ (forall l, l ∈ [4%positive; 3%positive] -> store_ab !! l = None)
  /\ (forall l,
      is_Some ((rank_recommendations no_alnum same_str log10_table log10_const
                  round_id store_ab [2%positive; 1%positive] prefs_iu).2 !! l)
      <-> is_Some (store_ab !! l) \/ l ∈ [4%positive; 3%positive]).
Proof.
  apply (rank_recommendations_returns_fresh_copies no_alnum same_str
           log10_table log10_const round_id store_ab
           [2%positive; 1%positive] prefs_iu [4%positive; 3%positive]).
  by vm_compute.
Defined.

Lemma rank_recommendations_propagates_errors_witness :
  exists e',
    (rank_recommendations no_alnum same_str log10_table log10_const round_id
       {[ 1%positive := record_a; 2%positive := record_negative ]}
       [1%positive; 2%positive] prefs_iu).1 = Raise e'.
Proof.
  apply (rank_recommendations_propagates_errors no_alnum same_str log10_table
           log10_const round_id
           {[ 1%positive := record_a; 2%positive := record_negative ]}
           [1%positive; 2%positive] prefs_iu 2%positive record_negative
           ValueError).
  - repeat constructor.
  - by vm_compute.
  - by vm_compute.
Defined.

(** ** ytmusic_search_url *)

(** [str.encode("utf-8")] for one code point.  A surrogate has no encoding:
    the call raises [UnicodeEncodeError], a [ValueError]. *)
Definition utf8 (c : char) : res (list N) :=
  if c <? 128 then Ok [c]
  else if c <? 2048 then Ok [192 + c / 64; 128 + c mod 64]
  else if c <? 65536 then
    if (55296 <=? c) && (c <=? 57343) then Raise ValueError
    else Ok [224 + c / 4096; 128 + (c / 64) mod 64; 128 + c mod 64]
  else if c <? 1114112 then
    Ok [240 + c / 262144; 128 + (c / 4096) mod 64;
        128 + (c / 64) mod 64; 128 + c mod 64]
  else Raise ValueError.

(** The characters [urllib.parse.quote] never escapes: letters, digits and
    [_.-~]. *)
Definition always_safe (b : N) : bool :=
  ascii_alnum b || (b =? ch "_") || (b =? ch ".") || (b =? ch "-")
  || (b =? ch "~").

Definition hex_digit (n : N) : char :=
  if n <? 10 then 48 + n else 55 + n.

(** One byte under [quote_plus]: kept, a space turned into [+], or [%XX]. *)
Definition quote_byte (b : N) : str :=
  if always_safe b then [b]
  else if b =? ch " " then [ch "+"]
  else [ch "%"; hex_digit (b / 16); hex_digit (b mod 16)].

(** [urllib.parse.quote_plus(s)]. *)
Fixpoint quote_plus (s : str) : res str :=
  match s with
  | [] => Ok []
  | c :: s' =>
      bs ← utf8 c;
      rest ← quote_plus s';
      Ok (flat_map quote_byte bs ++ rest)
  end.

Definition search_base : str := lit "https://music.youtube.com/search?q=".

Definition ytmusic_search_url (query : str) : res str :=
  q ← quote_plus query;
  Ok (search_base ++ q).

(** A character that may stand in the encoded query. *)
Definition url_char (c : char) : bool :=
  always_safe c || (c =? ch "+") || (c =? ch "%").

(** A code point that is not a surrogate. *)
Definition scalar (c : char) : bool :=
  (c <? 1114112) && negb ((55296 <=? c) && (c <=? 57343)).

Section SearchUrl.

Implicit Types (s q : str) (c b : N).

Lemma hex_digit_url n : n < 16 -> url_char (hex_digit n) = true.
Proof.
  intros H. unfold hex_digit, url_char, always_safe.
  assert (ascii_alnum (if n <? 10 then 48 + n else 55 + n) = true) as ->;
    [|done].
  unfold ascii_alnum. rewrite !orb_true_iff, !andb_true_iff, !N.leb_le.
  destruct (N.ltb_spec n 10); lia.
Qed.

Lemma quote_byte_url b : b < 256 -> forallb url_char (quote_byte b) = true.
Proof.
  intros Hb. unfold quote_byte.
  destruct (always_safe b) eqn:Es.
  - simpl. unfold url_char. by rewrite Es.
  - destruct (b =? ch " "); [done|]. cbn [forallb].
    rewrite !hex_digit_url; [done| |].
    + apply N.mod_lt. done.
    + apply N.Div0.div_lt_upper_bound. lia.
Qed.

Lemma always_safe_ascii c : always_safe c = true -> c < 128.
Proof.
  unfold always_safe, ascii_alnum.
  rewrite !orb_true_iff, !andb_true_iff, !N.leb_le, !N.eqb_eq.
  change (ch "_") with 95. change (ch ".") with 46.
  change (ch "-") with 45. change (ch "~") with 126. lia.
Qed.

Lemma utf8_bytes c bs : utf8 c = Ok bs -> Forall (fun b => b < 256) bs.
Proof.
  unfold utf8.
  destruct (N.ltb_spec c 128); [intros [= <-]; repeat constructor; lia|].
  destruct (N.ltb_spec c 2048).
  { intros [= <-].
    pose proof (N.mod_lt c 64 ltac:(done)).
    assert (c / 64 < 32) by (apply N.Div0.div_lt_upper_bound; lia).
    repeat constructor; lia. }
  destruct (N.ltb_spec c 65536).
  { destruct (_ && _); [done|]. intros [= <-].
    pose proof (N.mod_lt c 64 ltac:(done)).
    pose proof (N.mod_lt (c / 64) 64 ltac:(done)).
    assert (c / 4096 < 16) by (apply N.Div0.div_lt_upper_bound; lia).
    repeat constructor; lia. }
  destruct (N.ltb_spec c 1114112); [|done].
  intros [= <-].
  pose proof (N.mod_lt c 64 ltac:(done)).
  pose proof (N.mod_lt (c / 64) 64 ltac:(done)).
  pose proof (N.mod_lt (c / 4096) 64 ltac:(done)).
  assert (c / 262144 < 5) by (apply N.Div0.div_lt_upper_bound; lia).
  repeat constructor; lia.
Qed.

Lemma utf8_scalar c : (exists bs, utf8 c = Ok bs) <-> scalar c = true.
Proof.
  unfold utf8, scalar.
  destruct (N.ltb_spec c 128), (N.ltb_spec c 2048), (N.ltb_spec c 65536),
    (N.ltb_spec c 1114112); try lia;
    destruct (N.leb_spec 55296 c), (N.leb_spec c 57343); try lia; simpl;
    split; eauto; try done; by intros [? ?].
Qed.

Lemma quote_plus_chars : forall s q,
  quote_plus s = Ok q -> forallb url_char q = true.
Proof.
  induction s as [|c s IH]; intros q; cbn [quote_plus]; [by intros [= <-]|].
  destruct (utf8 c) as [bs|e] eqn:Ec; [|done]. cbn [mbind res_mbind res_bind].
  destruct (quote_plus s) as [rest|e]; [|done].
  cbn [mbind res_mbind res_bind]. intros [= <-].
  rewrite forallb_app, (IH rest eq_refl), andb_true_r.
  apply utf8_bytes in Ec. induction Ec as [|b bs Hb _ IHb]; [done|].
  cbn [flat_map]. by rewrite forallb_app, quote_byte_url, IHb.
Qed.

Lemma quote_plus_scalar : forall s,
  (exists q, quote_plus s = Ok q) <-> forallb scalar s = true.
Proof.
  induction s as [|c s IH]; cbn [quote_plus forallb]; [by split; eauto|].
  rewrite andb_true_iff, <- IH, <- utf8_scalar. split.
  - intros [q H]. destruct (utf8 c) as [bs|e]; [|done].
    cbn [mbind res_mbind res_bind] in H.
    destruct (quote_plus s) as [rest|e]; [|done]. eauto.
  - intros [[bs ->] [rest ->]]. by eexists.
Qed.

(** The URL is the fixed base followed by the encoded query, and the encoded
    query holds only letters, digits and [_.-~+%]; the call raises exactly
    when the query holds a surrogate code point. *)
Theorem ytmusic_search_url_shape (query : str) :
  ((exists url, ytmusic_search_url query = Ok url)
   <-> forallb scalar query = true)
  /\ (forall url, ytmusic_search_url query = Ok url ->
      exists q, url = search_base ++ q /\ forallb url_char q = true).
Proof.
  unfold ytmusic_search_url. split.
  - rewrite <- quote_plus_scalar. split.
    + intros [url H]. destruct (quote_plus query) as [q|e]; [|done]. eauto.
    + intros [q ->]. by eexists.
  - intros url H. destruct (quote_plus query) as [q|e] eqn:E; [|done].
    injection H as <-. exists q. split; [done|]. by eapply quote_plus_chars.
Qed.

(** A query of letters, digits, [_.-~] and spaces is passed through with
    each space turned into a plus sign. *)
Theorem ytmusic_search_url_plain (query : str) :
  forallb (fun c => always_safe c || (c =? ch " ")) query = true ->
  ytmusic_search_url query
  = Ok (search_base ++ replace_char (ch " ") (ch "+") query).
Proof.
  intros H. unfold ytmusic_search_url.
  assert (quote_plus query = Ok (replace_char (ch " ") (ch "+") query)) as ->;
    [|done].
  induction query as [|c s IH]; [done|].
  cbn [forallb] in H. apply andb_true_iff in H as [Hc Hs].
  cbn [quote_plus]. rewrite (IH Hs).
  assert (c < 128) as Hlt.
  { apply orb_true_iff in Hc as [Hc|Hc]; [by apply always_safe_ascii|].
    apply N.eqb_eq in Hc. by subst c. }
  unfold utf8. destruct (N.ltb_spec c 128); [|lia].
  cbn [mbind res_mbind res_bind flat_map]. rewrite app_nil_r.
  unfold quote_byte. cbn [replace_char map].
  destruct (always_safe c) eqn:Es.
  - destruct (N.eqb_spec c (ch " ")) as [->|_]; [by vm_compute in Es|done].
  - cbn [orb] in Hc. by rewrite Hc.
Qed.

End SearchUrl.

Example ytmusic_search_url_examples :
  ytmusic_search_url ([50500; 51060; 50976] ++ lit " k-pop")
  = Ok (search_base ++ lit "%EC%95%84%EC%9D%B4%EC%9C%A0+k-pop")
  /\ ytmusic_search_url (lit "a+b&c=d/" ++ [233] ++ lit "~_.-")
     = Ok (search_base ++ lit "a%2Bb%26c%3Dd%2F%C3%A9~_.-")
  /\ ytmusic_search_url ([128512] ++ lit "x")
     = Ok (search_base ++ lit "%F0%9F%98%80x")
  /\ ytmusic_search_url [55296] = Raise ValueError.
Proof. by vm_compute. Qed.

Lemma ytmusic_search_url_plain_witness :
  ytmusic_search_url (lit "k-pop ballad")
  = Ok (search_base ++ replace_char (ch " ") (ch "+") (lit "k-pop ballad")).
Proof.
  apply (ytmusic_search_url_plain (lit "k-pop ballad")). by vm_compute.
Defined.
